(** * A simple CSV reader and writer

    Shallow embedding of [cpp/04-data-science/02-simple-csv-handler.cpp]:
    [escape_csv_field], [write_csv] and [read_csv], together with the part of
    the C++ stream library those functions rely on (stream state flags,
    [get], [peek], [getline], insertion into an output file).

    A [std::string] is a list of characters; a Row is a list of Fields and a
    Table a list of Rows, as the [std::vector]s of the source. *)

From Stdlib Require Import ZArith Ascii String List Lia.
From stdpp Require Import base option list gmap strings.

Local Open Scope char_scope.

(** ** Text and the characters the handler looks at *)

Abbreviation text := (list ascii).

(** A string literal of the source, as a [text]. *)
Definition txt (s : string) : text := list_ascii_of_string s.

Definition COMMA : ascii := ",".
Definition DQUOTE : ascii := "034".
Definition LF : ascii := "010".
Definition CR : ascii := "013".
Definition NUL : ascii := "000".

(** [s.empty()] and [s.back()] of [std::string]; [back] is only called on a
    non-empty string in the source, the default is never observed. *)
Definition empty (s : text) : bool :=
  match s with [] => true | _ :: _ => false end.

Definition back (s : text) : ascii := List.last s NUL.

Definition pop_back (s : text) : text := removelast s.

(** ** Stream state: [std::ios_base::iostate] *)

Record iostate := IoState { eofbit : bool; failbit : bool; badbit : bool }.

Definition goodbit : iostate := IoState false false false.

Definition good (st : iostate) : bool :=
  negb (eofbit st || failbit st || badbit st).

(** [fail()] is true when [failbit] or [badbit] is set; a stream converts to
    [true] in a condition when [fail()] is false. *)
Definition fail (st : iostate) : bool := failbit st || badbit st.

Definition set_eof (st : iostate) : iostate :=
  IoState true (failbit st) (badbit st).

Definition set_fail (st : iostate) : iostate :=
  IoState (eofbit st) true (badbit st).

Definition set_bad (st : iostate) : iostate :=
  IoState (eofbit st) (failbit st) true.

(** ** Input streams

    An input stream is the sequence of characters not yet extracted and its
    state flags. Both [std::ifstream] (once opened) and [std::stringstream]
    are read through this interface. *)

Record istream := IStream { rdbuf : text; rdstate : iostate }.

Definition stringstream (s : text) : istream := IStream s goodbit.

Definition ok (s : istream) : bool := negb (fail (rdstate s)).
Definition eof (s : istream) : bool := eofbit (rdstate s).
Definition bad (s : istream) : bool := badbit (rdstate s).

Definition setstate (f : iostate -> iostate) (s : istream) : istream :=
  IStream (rdbuf s) (f (rdstate s)).

(** [Traits::eof()] and [Traits::to_int_type]: [peek] returns an [int], the
    character as an unsigned value, or [EOF]. *)
Definition EOF : Z := (-1)%Z.

Definition to_int_type (c : ascii) : Z := Z.of_N (N_of_ascii c).

(** [is.get(c)]: unformatted extraction of one character into [c]. When the
    stream is not good the sentry sets [failbit]; at the end of the buffer
    [eofbit] and [failbit] are set; in both cases [c] keeps its value. *)
Definition get (c : ascii) (s : istream) : ascii * istream :=
  if good (rdstate s) then
    match rdbuf s with
    | [] => (c, setstate (fun st => set_fail (set_eof st)) s)
    | x :: rest => (x, IStream rest (rdstate s))
    end
  else (c, setstate set_fail s).

(** [is.peek()]: the next character without extracting it, [EOF] (setting
    [eofbit]) at the end of the buffer, [EOF] when the stream is not good. *)
Definition peek (s : istream) : Z * istream :=
  if good (rdstate s) then
    match rdbuf s with
    | [] => (EOF, setstate set_eof s)
    | x :: _ => (to_int_type x, s)
    end
  else (EOF, setstate set_fail s).

(** The characters before the first line feed, and what follows that line
    feed when there is one. *)
Fixpoint split_line (b : text) : text * option text :=
  match b with
  | [] => ([], None)
  | x :: rest =>
      if (x =? LF) then ([], Some rest)
      else let '(l, r) := split_line rest in (x :: l, r)
  end.

(** [std::getline(is, line)]: the line feed is extracted and dropped; reaching
    the end of the buffer sets [eofbit], and [failbit] too when nothing at all
    was extracted. When the stream is not good [line] is left as it was. *)
Definition getline (line : text) (s : istream) : text * istream :=
  if good (rdstate s) then
    match split_line (rdbuf s) with
    | (l, Some rest) => (l, IStream rest (rdstate s))
    | (l, None) =>
        (l, IStream [] (if empty l then set_fail (set_eof (rdstate s))
                        else set_eof (rdstate s)))
    end
  else (line, setstate set_fail s).

(** ** The world outside the program

    The files that exist, with their contents; which paths can be opened for
    writing; what the output device does when a stream hands it characters;
    how the stream library buffers; and what has been printed on
    [std::cerr].

    [takes w path sofar out] is the number of characters of [out] the
    device takes when the file at [path] holds [sofar]: all of [out] when
    the write goes through, fewer (possibly none) when the device runs
    full or fails.

    [sends w buf s] is the number of characters the stream hands to the
    device when [s] is inserted while its buffer holds [buf], counted from
    the start of [buf ++ s]; the other characters wait in the buffer for a
    later insertion, or for [close()]. A stream library with a large buffer
    sends nothing for a small file; nothing here depends on the size of the
    buffer. *)

Record world := World {
  files : gmap text text;
  creatable : text -> bool;
  takes : text -> text -> text -> nat;
  sends : text -> text -> nat;
  cerr : text
}.

Definition cerr_endl (msg : text) (w : world) : world :=
  World (files w) (creatable w) (takes w) (sends w) (cerr w ++ msg ++ [LF]).

Definition set_file (path contents : text) (w : world) : world :=
  World (<[path := contents]> (files w)) (creatable w) (takes w) (sends w)
        (cerr w).

Definition file_contents (path : text) (w : world) : text :=
  default [] (files w !! path).

(** ** CSV writer *)

(** One round of the loop over the characters of [field]. *)
Definition escape_step (st : bool * text) (c : ascii) : bool * text :=
  let '(needs_quoting, escaped_field) := st in
  let needs_quoting :=
    if (c =? COMMA) || (c =? LF) || (c =? DQUOTE) then true
    else needs_quoting in
  let escaped_field :=
    if (c =? DQUOTE) then escaped_field ++ [DQUOTE; DQUOTE]
    else escaped_field ++ [c] in
  (needs_quoting, escaped_field).

Definition escape_csv_field (field : text) : text :=
  let '(needs_quoting, escaped_field) := foldl escape_step (false, []) field in
  if needs_quoting then [DQUOTE] ++ escaped_field ++ [DQUOTE]
  else field.

(** *** Output file streams

    [std::ofstream]: whether the file is open, its path, the characters that
    wait in its buffer, and the state flags. Opening truncates or creates
    the file. *)

Record ofstream := OStream {
  is_open : bool;
  opath : text;
  obuf : text;
  ostate : iostate
}.

Definition ofstream_open (filename : text) (w : world) : ofstream * world :=
  if creatable w filename
  then (OStream true filename [] goodbit, set_file filename [] w)
  else (OStream false filename [] (set_fail goodbit), w).

(** The stream buffer hands [out] to the device: the file grows by what the
    device takes; the write has failed when that is not all of [out]. *)
Definition device_write (path out : text) (w : world) : bool * world :=
  let sofar := file_contents path w in
  let n := takes w path sofar out in
  (Nat.leb (length out) n, set_file path (sofar ++ take n out) w).

(** [outfile << s]. On a good stream the characters join the buffer, and
    the stream hands to the device what its buffering makes it send now; if
    the device does not take it all, [badbit] is set and the buffer is left
    as it was. On a stream that is not good nothing is inserted and
    [failbit] is set. *)
Definition put (s : text) (ow : ofstream * world) : ofstream * world :=
  let '(o, w) := ow in
  if good (ostate o) then
    let pending := obuf o ++ s in
    let n := sends w (obuf o) s in
    if empty (take n pending) then
      (OStream (is_open o) (opath o) pending (ostate o), w)
    else
      let '(taken, w) := device_write (opath o) (take n pending) w in
      if taken
      then (OStream (is_open o) (opath o) (drop n pending) (ostate o), w)
      else (OStream (is_open o) (opath o) pending (set_bad (ostate o)), w)
  else (OStream (is_open o) (opath o) (obuf o) (set_fail (ostate o)), w).

(** [outfile.close()]: what waits in the buffer is handed to the device,
    whatever the state of the stream, and the file is closed; [failbit] is
    set when the device does not take it all, or when no file was open. *)
Definition close (ow : ofstream * world) : ofstream * world :=
  let '(o, w) := ow in
  if is_open o then
    if empty (obuf o) then (OStream false (opath o) [] (ostate o), w)
    else
      let '(taken, w) := device_write (opath o) (obuf o) w in
      (OStream false (opath o) []
         (if taken then ostate o else set_fail (ostate o)), w)
  else (OStream false (opath o) (obuf o) (set_fail (ostate o)), w).

(** Subtraction on [size_t] (64 bits), wrapping around. *)
Definition size_t_sub (a b : Z) : Z := ((a - b) mod 2 ^ 64)%Z.

(** Body of the loop over [j]: one Field of [row], and a comma unless it is
    the last one. *)
Definition write_field (row : list text) (ow : ofstream * world) (j : nat)
  : ofstream * world :=
  let ow := put (escape_csv_field (row !!! j)) ow in
  if (Z.of_nat j <? size_t_sub (Z.of_nat (length row)) 1)%Z
  then put [COMMA] ow
  else ow.

(** Body of the loop over [i]: the Fields of row [i], then a line feed. *)
Definition write_row (data : list (list text)) (ow : ofstream * world) (i : nat)
  : ofstream * world :=
  let row := data !!! i in
  let ow := foldl (write_field row) ow (seq 0 (length row)) in
  put [LF] ow.

Definition write_csv (filename : text) (data_to_write : list (list text))
  (w : world) : bool * world :=
  let '(outfile, w) := ofstream_open filename w in
  if negb (is_open outfile) then
    (false,
     cerr_endl (txt "Error: Could not open file " ++ filename
                ++ txt " for writing.") w)
  else
    let '(outfile, w) :=
      foldl (write_row data_to_write) (outfile, w)
            (seq 0 (length data_to_write)) in
    if fail (ostate outfile) then
      let w :=
        cerr_endl (txt "Error: An error occurred while writing to "
                   ++ filename) w in
      let '(outfile, w) := close (outfile, w) in
      (false, w)
    else
      let '(outfile, w) := close (outfile, w) in
      (true, w).

(** ** CSV reader *)

(** The loop of the non-quoted branch:
    [while (peek() != EOF && peek() != ',') { get(c); field += c; }].
    [fuel] bounds the number of rounds; the callers give one more than the
    number of characters left in the stream. *)
Fixpoint unquoted_loop (fuel : nat) (c : ascii) (field : text) (ls : istream)
  : ascii * text * istream :=
  match fuel with
  | O => (c, field, ls)
  | S fuel =>
      let '(p, ls) := peek ls in
      if (p =? EOF)%Z then (c, field, ls) else
      let '(p, ls) := peek ls in
      if (p =? to_int_type COMMA)%Z then (c, field, ls) else
      let '(c, ls) := get c ls in
      unquoted_loop fuel c (field ++ [c]) ls
  end.

(** The loop of the quoted branch: [while (in_quotes && get(c)) ...].
    It is entered with [in_quotes] true; setting [in_quotes] to false ends
    the loop at the next test, before [get] is called again. *)
Fixpoint quoted_loop (fuel : nat) (c : ascii) (quoted_content : text)
  (ls : istream) : ascii * text * istream :=
  match fuel with
  | O => (c, quoted_content, ls)
  | S fuel =>
      let '(c, ls) := get c ls in
      if negb (ok ls) then (c, quoted_content, ls) else
      if (c =? DQUOTE) then
        let '(p, ls) := peek ls in
        if (p =? to_int_type DQUOTE)%Z then
          let quoted_content := quoted_content ++ [DQUOTE] in
          let '(c, ls) := get c ls in
          quoted_loop fuel c quoted_content ls
        else (c, quoted_content, ls)
      else quoted_loop fuel c (quoted_content ++ [c]) ls
  end.

(** The statements of one round of [while (line_stream.get(c))] that read
    one Field, [c] being the character just extracted: the quoted branch
    (with its two trailing [peek]s, whose results are not used) or the
    non-quoted one. *)
Definition read_field (c : ascii) (ls : istream) : ascii * text * istream :=
  if (c =? DQUOTE) then
    let '(c, quoted_content, ls) :=
      quoted_loop (S (length (rdbuf ls))) c [] ls in
    let field := quoted_content in
    let '(p, ls) := peek ls in
    let ls := if (p =? EOF)%Z then ls else snd (peek ls) in
    (c, field, ls)
  else
    let field := [] ++ [c] in
    unquoted_loop (S (length (rdbuf ls))) c field ls.

(** The variables of [while (line_stream.get(c)) { ... }]: [c], [field],
    [row] and the stream. *)
Definition loop_vars : Type := ascii * text * list text * istream.

(** One round of that loop, test included: [inr] when the loop is left (the
    test fails, or a [break]), [inl] with the variables for the next round
    otherwise. [field] is cleared at the end of every round. *)
Definition field_round (v : loop_vars) : loop_vars + list text * istream :=
  let '(c, field, row, ls) := v in
  let '(c, ls) := get c ls in
  if negb (ok ls) then inr (row, ls) else
  if eof ls && empty field && (c =? NUL) then inr (row, ls) else
  let '(c, field, ls) := read_field c ls in
  let row := row ++ [field] in
  let field : text := [] in
  let '(p, ls) := peek ls in
  if (p =? to_int_type COMMA)%Z then
    let '(c, ls) := get c ls in
    inl (c, field, row, ls)
  else
    let '(p, ls) := peek ls in
    if (p =? EOF)%Z then inr (row, ls)
    else inl (c, field, row, ls).

(** The loop itself. [fuel] bounds the number of rounds; with the fuel its
    caller gives, the loop is always left before the fuel runs out. *)
Fixpoint field_loop (fuel : nat) (v : loop_vars) : list text * istream :=
  match fuel with
  | O => (snd (fst v), snd v)
  | S fuel =>
      match field_round v with
      | inl v' => field_loop fuel v'
      | inr out => out
      end
  end.

(** The body of the loop over the lines, from the declaration of [row] to
    the trailing empty Field: the Row decoded from one line. The variable
    [c] is not initialised in the source; [get] writes it before it is
    read. *)
Definition decode_line (line : text) : list text :=
  let line_stream := stringstream line in
  let '(row, _) :=
    field_loop (S (length line)) (NUL, [], [], line_stream) in
  if negb (empty line) && (back line =? COMMA) then row ++ [[]] else row.

(** One round of [while (std::getline(infile, line)) { ... }] on the
    variables [line], [data] and [infile]. *)
Definition line_vars : Type := text * list (list text) * istream.

Definition line_round (v : line_vars)
  : line_vars + list (list text) * istream :=
  let '(line, data, infile) := v in
  let '(line, infile) := getline line infile in
  if negb (ok infile) then inr (data, infile) else
  let line :=
    if negb (empty line) && (back line =? CR) then pop_back line
    else line in
  if empty line && eof infile then inl (line, data, infile) else
  let row := decode_line line in
  inl (line, data ++ [row], infile).

(** The loop over the lines, with fuel in the same way. *)
Fixpoint line_loop (fuel : nat) (v : line_vars)
  : list (list text) * istream :=
  match fuel with
  | O => (snd (fst v), snd v)
  | S fuel =>
      match line_round v with
      | inl v' => line_loop fuel v'
      | inr out => out
      end
  end.

(** [std::ifstream infile(filename)]: a file that does not exist cannot be
    opened, and the stream is then in a failed state. What is read is the
    file's contents; reading itself never sets [badbit]. *)
Definition ifstream_open (filename : text) (w : world) : bool * istream :=
  match files w !! filename with
  | Some contents => (true, IStream contents goodbit)
  | None => (false, IStream [] (set_fail goodbit))
  end.

Definition read_csv (filename : text) (w : world)
  : list (list text) * world :=
  let data : list (list text) := [] in
  let '(opened, infile) := ifstream_open filename w in
  if negb opened then
    (data,
     cerr_endl (txt "Error: Could not open file " ++ filename
                ++ txt " for reading.") w)
  else
    let '(data, infile) :=
      line_loop (S (length (rdbuf infile))) ([], data, infile) in
    let w :=
      if bad infile then
        cerr_endl (txt "Error: An I/O error occurred while reading "
                   ++ filename) w
      else w in
    (data, w).

(** ** Definitions used to state the properties *)

(** The characters that make [escape_csv_field] quote a Field. *)
Definition special (c : ascii) : bool :=
  (c =? COMMA) || (c =? LF) || (c =? DQUOTE).

(** A text with every quote character doubled. *)
Definition double_quotes (f : text) : text :=
  flat_map (fun c => if (c =? DQUOTE) then [DQUOTE; DQUOTE] else [c]) f.

(** Texts joined by a separator. *)
Fixpoint join (sep : text) (l : list text) : text :=
  match l with
  | [] => []
  | [x] => x
  | x :: rest => x ++ sep ++ join sep rest
  end.

(** The text of a Table as the writer's contract words it: the Fields of a
    Row, encoded, joined by one comma; one line feed after every Row. *)
Definition row_text (row : list text) : text :=
  join [COMMA] (map escape_csv_field row).

Definition table_text (data : list (list text)) : text :=
  flat_map (fun row => row_text row ++ [LF]) data.

(** The insertions [write_csv] makes for a Table, in order. *)
Fixpoint row_insertions (row : list text) : list text :=
  match row with
  | [] => []
  | [f] => [escape_csv_field f]
  | f :: rest => escape_csv_field f :: [COMMA] :: row_insertions rest
  end.

Definition insertions (data : list (list text)) : list text :=
  flat_map (fun row => row_insertions row ++ [[LF]]) data.

(** A run of insertions. *)
Definition puts (ow : ofstream * world) (chunks : list text)
  : ofstream * world :=
  foldl (fun ow ch => put ch ow) ow chunks.

(** The largest size a [std::vector] can have fits a [size_t]. *)
Definition fits_size_t (n : nat) : Prop := (Z.of_nat n < 2 ^ 64)%Z.

(** Writing to [path] goes through: the file can be opened, and the device
    takes all the characters it is handed. *)
Definition writes_through (w : world) (path : text) : Prop :=
  creatable w path = true
  /\ forall sofar out, length out <= takes w path sofar out.



(** The characters before the first comma, and the text from that comma on. *)
Fixpoint upto_comma (b : text) : text :=
  match b with
  | [] => []
  | x :: r => if (x =? COMMA) then [] else x :: upto_comma r
  end.

Fixpoint from_comma (b : text) : text :=
  match b with
  | [] => []
  | x :: r => if (x =? COMMA) then b else from_comma r
  end.

(** What follows an opening quote: the content up to the closing quote
    (a doubled quote standing for one quote), the text after the closing
    quote, and whether a closing quote was found. *)
Fixpoint unquote (b : text) : text * text * bool :=
  match b with
  | [] => ([], [], false)
  | x :: r =>
      if (x =? DQUOTE) then
        match r with
        | [] => ([], [], true)
        | y :: r' =>
            if (y =? DQUOTE) then
              let '(q, rest, closed) := unquote r' in
              (DQUOTE :: q, rest, closed)
            else ([], r, true)
        end
      else
        let '(q, rest, closed) := unquote r in (x :: q, rest, closed)
  end.

(** The Field that starts with the character [c] followed by [b], and the
    text left after it. *)
Definition scan_field (c : ascii) (b : text) : text * text :=
  if (c =? DQUOTE) then let '(q, rest, _) := unquote b in (q, rest)
  else (c :: upto_comma b, from_comma b).

(** The variables at the start of round [n] of the loop over the Fields of
    [line], when the loop gets that far. *)
Fixpoint loop_head (line : text) (n : nat) : option loop_vars :=
  match n with
  | O => Some (NUL, [], [], stringstream line)
  | S n =>
      match loop_head line n with
      | Some v =>
          match field_round v with
          | inl v' => Some v'
          | inr _ => None
          end
      | None => None
      end
  end.

(** A bound on the number of rounds a loop over a stream can still make:
    every round but the last extracts at least one character. *)
Definition rounds_bound (s : istream) : nat :=
  if good (rdstate s) then S (length (rdbuf s)) else 1.

(** The variables at the start of round [n] of the loop over the lines of a
    file that holds [contents], when the loop gets that far. *)
Fixpoint line_head (contents : text) (n : nat) : option line_vars :=
  match n with
  | O => Some ([], [], IStream contents goodbit)
  | S n =>
      match line_head contents n with
      | Some v =>
          match line_round v with
          | inl v' => Some v'
          | inr _ => None
          end
      | None => None
      end
  end.

(** The state a stream is in once it has run into its end: after a failed
    extraction, and after a [peek] at the end followed by another. *)
Definition eof_fail : iostate := set_fail (set_eof goodbit).

(** Files read through [read_csv]: the Table decoded from [contents]. *)
Definition read_text (contents : text) : list (list text) :=
  fst (line_loop (S (length contents)) ([], [], IStream contents goodbit)).

(** The text of a file, given its lines: each is followed by a line feed. *)
Definition lines_text (lines : list text) : text :=
  flat_map (fun l => l ++ [LF]) lines.

(** The text of a file whose lines end with a carriage return and a line
    feed. *)
Definition crlf_text (lines : list text) : text :=
  flat_map (fun l => l ++ [CR; LF]) lines.

(** What the reader does to a line before decoding it: a carriage return
    at its end is removed. *)
Definition strip_cr (line : text) : text :=
  if negb (empty line) && (back line =? CR) then pop_back line else line.

(** A Field [write_csv] followed by [read_csv] gives back: it is not empty,
    holds no line feed, and does not end in a carriage return unless it is
    written quoted. *)
Definition survives (f : text) : Prop :=
  f <> [] /\ (LF ∉ f) /\ (existsb special f = false -> back f <> CR).

(** A Row that is read back: none of its Fields is empty or holds a line
    feed, and the last one does not end in a carriage return unless it is
    written quoted. *)
Definition row_survives (row : list text) : Prop :=
  Forall (fun f => f <> [] /\ (LF ∉ f)) row
  /\ (forall f, last row = Some f ->
      existsb special f = false -> back f <> CR).

(** Worlds used in the examples, both without any file and with a stream
    library that sends nothing to the device before [close()]: one whose
    device takes everything, and one whose device takes nothing. *)
Definition blank_world : world :=
  World ∅ (fun _ => true) (fun _ _ out => length out) (fun _ _ => 0) [].

Definition full_world : world :=
  World ∅ (fun _ => true) (fun _ _ _ => 0) (fun _ _ => 0) [].

(** One Field written alone to [sample.csv] in [blank_world]: whether
    [write_csv] succeeds, and the Table [read_csv] then reads from the
    file. *)
Definition written_alone (f : text) : bool :=
  fst (write_csv (txt "sample.csv") [[f]] blank_world).

Definition read_back (f : text) : list (list text) :=
  fst (read_csv (txt "sample.csv")
         (snd (write_csv (txt "sample.csv") [[f]] blank_world))).

(** A world whose device lets a file grow to four characters and no more,
    and whose stream library sends every insertion to the device at
    once. *)
Definition small_world : world :=
  World ∅ (fun _ => true)
    (fun _ sofar out => Nat.min (length out) (4 - length sofar))
    (fun buf s => length buf + length s) [].

(** A world in which the file [blank.csv] holds one empty line. *)
Definition blank_line_world : world :=
  set_file (txt "blank.csv") [LF] blank_world.

(** * Properties *)

(** ** Characters and stream primitives *)

(** Evaluates the tests on the state flags of a stream. *)
Ltac flags :=
  cbn [ok eof bad rdstate rdbuf good fail goodbit
       eofbit failbit badbit orb negb andb].

Lemma to_int_type_not_EOF c : (to_int_type c =? EOF)%Z = false.
Proof.
  apply Z.eqb_neq. unfold to_int_type, EOF. lia.
Qed.

Lemma to_int_type_eqb c d : (to_int_type c =? to_int_type d)%Z = (c =? d).
Proof.
  destruct (Ascii.eqb_spec c d) as [->|Hne].
  - apply Z.eqb_refl.
  - apply Z.eqb_neq. unfold to_int_type. intros H.
    apply N2Z.inj in H. apply Hne.
    rewrite <- (ascii_N_embedding c), <- (ascii_N_embedding d). now rewrite H.
Qed.

Lemma good_goodbit st : good st = true -> st = goodbit.
Proof.
  destruct st as [[] [] []]; intros H; try reflexivity; discriminate H.
Qed.

Lemma peek_good x r :
  peek (IStream (x :: r) goodbit) = (to_int_type x, IStream (x :: r) goodbit).
Proof. reflexivity. Qed.

Lemma get_good c x r :
  get c (IStream (x :: r) goodbit) = (x, IStream r goodbit).
Proof. reflexivity. Qed.

(** After a [get] that succeeded the stream is not at its end: the [break]
    on a NUL character at the start of a round is never taken. *)
Lemma get_ok_not_eof c s :
  ok (snd (get c s)) = true -> eof (snd (get c s)) = false.
Proof.
  unfold get. destruct (good (rdstate s)) eqn:Hg.
  - apply good_goodbit in Hg. destruct s as [[|x r] st]; cbn in *; subst st.
    + discriminate.
    + reflexivity.
  - destruct s as [b [e f bd]]. cbn. discriminate.
Qed.

(** ** The encoder *)

Lemma foldl_escape_step f nq acc :
  foldl escape_step (nq, acc) f
  = (nq || existsb special f, acc ++ double_quotes f).
Proof.
  revert nq acc. induction f as [|c f IH]; intros nq acc; cbn [foldl].
  - cbn. now rewrite orb_false_r, app_nil_r.
  - unfold escape_step at 2. rewrite IH. cbn [existsb double_quotes flat_map].
    fold (special c). fold (double_quotes f).
    destruct (special c) eqn:Hs, (c =? DQUOTE) eqn:Hq, nq; cbn;
      rewrite <- ?app_assoc; reflexivity.
Qed.

Lemma escape_csv_field_eq f :
  escape_csv_field f
  = if existsb special f then [DQUOTE] ++ double_quotes f ++ [DQUOTE] else f.
Proof.
  unfold escape_csv_field. rewrite foldl_escape_step. cbn [orb app].
  reflexivity.
Qed.

Lemma special_true c : special c = true <-> c = COMMA \/ c = LF \/ c = DQUOTE.
Proof.
  unfold special. rewrite !orb_true_iff, !Ascii.eqb_eq. tauto.
Qed.

(** C2. A Field with a comma, a line feed or a quote is encoded as its
    characters with every quote doubled, between two quotes; a Field with
    none of them is encoded as itself. *)
Theorem escape_csv_field_cases (f : text) :
  ((exists c, c ∈ f /\ (c = COMMA \/ c = LF \/ c = DQUOTE)) ->
     escape_csv_field f = [DQUOTE] ++ double_quotes f ++ [DQUOTE])
  /\ ((forall c, c ∈ f -> c <> COMMA /\ c <> LF /\ c <> DQUOTE) ->
     escape_csv_field f = f).
Proof.
  rewrite escape_csv_field_eq. split.
  - intros (c & Hin & Hc).
    assert (existsb special f = true) as ->; [|reflexivity].
    apply existsb_exists. exists c. split.
    + now apply list_elem_of_In.
    + now apply special_true.
  - intros Hall.
    assert (existsb special f = false) as ->; [|reflexivity].
    apply not_true_is_false. intros H. apply existsb_exists in H.
    destruct H as (c & Hin & Hc). apply special_true in Hc.
    apply list_elem_of_In in Hin. specialize (Hall c Hin). tauto.
Qed.

Lemma escape_csv_field_cases_witness :
  escape_csv_field (txt "c,d") = [DQUOTE] ++ txt "c,d" ++ [DQUOTE]
  /\ escape_csv_field (txt "cd") = txt "cd".
Proof.
  split.
  - apply (proj1 (escape_csv_field_cases (txt "c,d"))).
    exists COMMA. split; [|now left].
    apply list_elem_of_In. simpl. tauto.
  - apply (proj2 (escape_csv_field_cases (txt "cd"))).
    intros c Hc. apply list_elem_of_In in Hc. simpl in Hc.
    destruct Hc as [<-|[<-|[]]]; repeat split; discriminate.
Defined.

(** ** The writer *)

Lemma file_contents_set_file p c w : file_contents p (set_file p c w) = c.
Proof.
  unfold file_contents, set_file. cbn. now rewrite lookup_insert_eq.
Qed.

Lemma set_file_set_file p c c' w :
  set_file p c' (set_file p c w) = set_file p c' w.
Proof.
  unfold set_file. cbn. now rewrite insert_insert_eq.
Qed.

Lemma size_t_sub_1 n :
  fits_size_t (S n) -> size_t_sub (Z.of_nat (S n)) 1 = Z.of_nat n.
Proof.
  unfold fits_size_t, size_t_sub. intros H.
  rewrite Z.mod_small; lia.
Qed.

(** The loop over [j], started at any index, makes the insertions of the
    Fields that are left. *)
Lemma write_field_loop pre suf ow :
  fits_size_t (length (pre ++ suf)) ->
  foldl (write_field (pre ++ suf)) ow (seq (length pre) (length suf))
  = puts ow (row_insertions suf).
Proof.
  revert pre ow. induction suf as [|f rest IH]; intros pre ow Hfit.
  - reflexivity.
  - cbn [length seq foldl].
    replace (pre ++ f :: rest) with ((pre ++ [f]) ++ rest) in *
      by now rewrite <- app_assoc.
    replace (S (length pre)) with (length (pre ++ [f]))
      by (rewrite length_app; cbn; lia).
    rewrite IH by exact Hfit.
    unfold write_field at 1.
    assert (((pre ++ [f]) ++ rest) !!! length pre = f) as ->.
    { apply list_lookup_total_correct. rewrite <- app_assoc. cbn.
      apply list_lookup_middle. reflexivity. }
    assert (length ((pre ++ [f]) ++ rest) = S (length pre + length rest))
      as Hlen.
    { rewrite !length_app. cbn. lia. }
    rewrite Hlen in *. rewrite size_t_sub_1 by exact Hfit.
    destruct rest as [|g rest].
    + cbn [length row_insertions puts foldl].
      assert ((Z.of_nat (length pre) <? Z.of_nat (length pre + 0))%Z = false)
        as ->
        by (apply Z.ltb_ge; lia).
      reflexivity.
    + cbn [length].
      assert ((Z.of_nat (length pre)
               <? Z.of_nat (length pre + S (length rest)))%Z = true) as ->
        by (apply Z.ltb_lt; lia).
      reflexivity.
Qed.

Lemma write_row_loop pre suf ow :
  Forall (fun row => fits_size_t (length row)) (pre ++ suf) ->
  foldl (write_row (pre ++ suf)) ow (seq (length pre) (length suf))
  = puts ow (insertions suf).
Proof.
  revert pre ow. induction suf as [|row rest IH]; intros pre ow Hfit.
  - reflexivity.
  - cbn [length seq foldl].
    assert (fits_size_t (length row)) as Hrow.
    { apply Forall_app in Hfit as [_ Hfit]. now inversion Hfit. }
    replace (pre ++ row :: rest) with ((pre ++ [row]) ++ rest) in *
      by now rewrite <- app_assoc.
    replace (S (length pre)) with (length (pre ++ [row]))
      by (rewrite length_app; cbn; lia).
    rewrite IH by exact Hfit.
    unfold write_row at 1.
    assert (((pre ++ [row]) ++ rest) !!! length pre = row) as ->.
    { apply list_lookup_total_correct. rewrite <- app_assoc. cbn.
      apply list_lookup_middle. reflexivity. }
    rewrite (write_field_loop [] row) by exact Hrow.
    unfold insertions at 2. cbn [flat_map]. fold (insertions rest).
    unfold puts. rewrite !foldl_app. reflexivity.
Qed.

Lemma concat_row_insertions row : concat (row_insertions row) = row_text row.
Proof.
  unfold row_text. induction row as [|f [|g rest] IH].
  - reflexivity.
  - cbn. rewrite ?app_nil_r. reflexivity.
  - change (row_insertions (f :: g :: rest))
      with (escape_csv_field f :: [COMMA] :: row_insertions (g :: rest)).
    cbn [concat]. rewrite IH. reflexivity.
Qed.

Lemma concat_insertions data : concat (insertions data) = table_text data.
Proof.
  unfold insertions, table_text. induction data as [|row data IH].
  - reflexivity.
  - cbn [flat_map]. rewrite concat_app, IH, concat_app, concat_row_insertions.
    reflexivity.
Qed.

(** What [write_csv] comes to: the file is opened, the insertions are made,
    the stream's [fail()] decides what is returned, and the stream is
    closed. *)
Lemma write_csv_eq filename data w :
  Forall (fun row => fits_size_t (length row)) data ->
  write_csv filename data w
  = if creatable w filename then
      let '(outfile, w') :=
        puts (OStream true filename [] goodbit, set_file filename [] w)
             (insertions data) in
      if fail (ostate outfile) then
        (false,
         snd (close (outfile,
                     cerr_endl (txt "Error: An error occurred while writing to "
                                ++ filename) w')))
      else (true, snd (close (outfile, w')))
    else
      (false, cerr_endl (txt "Error: Could not open file " ++ filename
                         ++ txt " for writing.") w).
Proof.
  intros Hfit. unfold write_csv, ofstream_open.
  destruct (creatable w filename); [|reflexivity].
  cbn [is_open negb].
  rewrite (write_row_loop [] data) by exact Hfit. cbn [app length].
  destruct (puts _ (insertions data)) as [outfile w'].
  destruct (fail (ostate outfile)); now destruct (close _).
Qed.

(** *** A device that takes everything *)

Lemma device_write_through p out w :
  (forall sofar out, length out <= takes w p sofar out) ->
  device_write p out w = (true, set_file p (file_contents p w ++ out) w).
Proof.
  intros Hall. unfold device_write.
  pose proof (Hall (file_contents p w) out) as Hn.
  rewrite (take_ge out) by exact Hn.
  apply Nat.leb_le in Hn. now rewrite Hn.
Qed.

(** While the device takes everything the stream stays good, and the file
    followed by the buffer is the text inserted so far. *)
Lemma put_through p w0 t s o w :
  (forall sofar out, length out <= takes w0 p sofar out) ->
  ostate o = goodbit -> opath o = p ->
  (exists c, w = set_file p c w0 /\ c ++ obuf o = t) ->
  ostate (fst (put s (o, w))) = goodbit
  /\ opath (fst (put s (o, w))) = p
  /\ is_open (fst (put s (o, w))) = is_open o
  /\ exists c, snd (put s (o, w)) = set_file p c w0
       /\ c ++ obuf (fst (put s (o, w))) = t ++ s.
Proof.
  intros Hall Hg Hp (c & -> & Ht). unfold put. rewrite Hg, Hp.
  cbn [good goodbit eofbit failbit badbit orb negb].
  destruct (empty (take _ (obuf o ++ s))).
  - cbn [fst snd ostate opath is_open obuf]. repeat split; try assumption.
    exists c. split; [reflexivity|]. now rewrite app_assoc, Ht.
  - rewrite (device_write_through p _ (set_file p c w0)) by exact Hall.
    cbn [fst snd ostate opath is_open obuf]. repeat split; try assumption.
    rewrite file_contents_set_file, set_file_set_file.
    eexists. split; [reflexivity|].
    now rewrite <- app_assoc, take_drop, app_assoc, Ht.
Qed.

Lemma puts_through p w0 chunks : forall t o w,
  (forall sofar out, length out <= takes w0 p sofar out) ->
  ostate o = goodbit -> opath o = p ->
  (exists c, w = set_file p c w0 /\ c ++ obuf o = t) ->
  ostate (fst (puts (o, w) chunks)) = goodbit
  /\ opath (fst (puts (o, w) chunks)) = p
  /\ is_open (fst (puts (o, w) chunks)) = is_open o
  /\ exists c, snd (puts (o, w) chunks) = set_file p c w0
       /\ c ++ obuf (fst (puts (o, w) chunks)) = t ++ concat chunks.
Proof.
  induction chunks as [|ch chunks IH]; intros t o w Hall Hg Hp Hw.
  - cbn. rewrite app_nil_r. now repeat split.
  - cbn [puts foldl concat]. fold (puts (put ch (o, w)) chunks).
    destruct (put_through p w0 t ch o w Hall Hg Hp Hw)
      as (Hg' & Hp' & Hopen & Hw').
    destruct (put ch (o, w)) as [o' w']. cbn [fst snd] in *.
    destruct (IH (t ++ ch) o' w' Hall Hg' Hp' Hw') as (? & ? & ? & Hc).
    repeat split; try assumption; [congruence|].
    now rewrite app_assoc.
Qed.

Lemma close_through p w0 t o w :
  (forall sofar out, length out <= takes w0 p sofar out) ->
  is_open o = true -> opath o = p ->
  (exists c, w = set_file p c w0 /\ c ++ obuf o = t) ->
  snd (close (o, w)) = set_file p t w0.
Proof.
  intros Hall Hopen Hp (c & -> & Ht). unfold close. rewrite Hopen, Hp.
  destruct (obuf o) as [|x b] eqn:Hb.
  - cbn. now rewrite app_nil_r in Ht; subst.
  - cbn [empty].
    rewrite (device_write_through p _ (set_file p c w0)) by exact Hall.
    cbn [snd]. now rewrite file_contents_set_file, set_file_set_file, Ht.
Qed.

(** When writing goes through, [write_csv] returns [true] and leaves the
    world as it was, but for the file, which holds the text of the
    Table. *)
Lemma write_csv_success filename data w :
  Forall (fun row => fits_size_t (length row)) data ->
  writes_through w filename ->
  write_csv filename data w = (true, set_file filename (table_text data) w).
Proof.
  intros Hfit [Hopen Hall]. rewrite write_csv_eq by exact Hfit. rewrite Hopen.
  destruct (puts_through filename w (insertions data) []
              (OStream true filename [] goodbit) (set_file filename [] w)
              Hall eq_refl eq_refl) as (Hg & Hp & Hop & Hw).
  { exists []. now split. }
  destruct (puts _ (insertions data)) as [outfile w'].
  cbn [fst snd app is_open] in *. rewrite Hg.
  cbn [fail goodbit failbit badbit orb].
  rewrite concat_insertions in Hw.
  now rewrite (close_through filename w (table_text data) outfile w' Hall
                 Hop Hp Hw).
Qed.

(** C7. When writing goes through (the file opens and the device takes all
    it is handed), [write_csv] leaves in the file the text of the Table:
    for every Row, its Fields passed through [escape_csv_field] and joined
    by one comma, followed by one line feed, the last Row included. *)
Theorem write_csv_table_text (filename : text) (data : list (list text))
  (w : world) :
  Forall (fun row => fits_size_t (length row)) data ->
  writes_through w filename ->
  fst (write_csv filename data w) = true
  /\ file_contents filename (snd (write_csv filename data w))
     = table_text data.
Proof.
  intros Hfit Hthrough. rewrite write_csv_success by assumption.
  split; [reflexivity|apply file_contents_set_file].
Qed.

Lemma writes_through_blank path : writes_through blank_world path.
Proof. split; [reflexivity|]. intros sofar out. cbn. lia. Qed.

Lemma write_csv_table_text_witness :
  file_contents (txt "sample.csv")
    (snd (write_csv (txt "sample.csv")
            [[txt "a"; txt "b"]; [txt "c,d"; txt "e"]] blank_world))
  = txt "a,b" ++ [LF] ++ [DQUOTE] ++ txt "c,d" ++ [DQUOTE] ++ txt ",e" ++ [LF].
Proof.
  rewrite (proj2 (write_csv_table_text (txt "sample.csv")
                    [[txt "a"; txt "b"]; [txt "c,d"; txt "e"]] blank_world
                    ltac:(repeat constructor)
                    (writes_through_blank (txt "sample.csv")))).
  vm_compute. reflexivity.
Defined.

(** *** A stream that buffers everything *)

(** While the stream sends nothing, the insertions only fill the buffer. *)
Lemma puts_buffered chunks : forall o w,
  (forall buf s, sends w buf s = 0) ->
  ostate o = goodbit ->
  puts (o, w) chunks
  = (OStream (is_open o) (opath o) (obuf o ++ concat chunks) (ostate o), w).
Proof.
  induction chunks as [|ch chunks IH]; intros o w Hsends Hg.
  - cbn. rewrite app_nil_r. now destruct o.
  - cbn [puts foldl concat]. fold (puts (put ch (o, w)) chunks).
    unfold put. rewrite Hg, Hsends, take_0.
    cbn [good goodbit eofbit failbit badbit orb negb empty].
    rewrite IH by (exact Hsends || reflexivity).
    cbn [is_open opath obuf ostate]. now rewrite app_assoc.
Qed.

(** X17. When the stream library sends nothing to the device before
    [close()] (the text of the Table fits its buffer), [write_csv] returns
    [true] and prints nothing on [std::cerr], whatever the device then
    takes of the text: what the file holds is what the device took at
    [close()]. *)
Theorem write_csv_buffered (filename : text) (data : list (list text))
  (w : world) :
  Forall (fun row => fits_size_t (length row)) data ->
  creatable w filename = true ->
  (forall buf s, sends w buf s = 0) ->
  fst (write_csv filename data w) = true
  /\ cerr (snd (write_csv filename data w)) = cerr w
  /\ file_contents filename (snd (write_csv filename data w))
     = take (takes w filename [] (table_text data)) (table_text data).
Proof.
  intros Hfit Hopen Hsends. rewrite write_csv_eq by exact Hfit. rewrite Hopen.
  rewrite puts_buffered by (exact Hsends || reflexivity).
  cbn [is_open opath obuf ostate app fail goodbit failbit badbit orb fst snd].
  rewrite concat_insertions. unfold close. cbn [is_open opath obuf ostate].
  destruct (table_text data) as [|x t] eqn:Ht.
  - cbn [empty snd]. rewrite file_contents_set_file. now rewrite take_nil.
  - cbn [empty]. unfold device_write. rewrite file_contents_set_file.
    cbn [snd app takes set_file cerr]. repeat split.
    apply file_contents_set_file.
Qed.

Lemma write_csv_buffered_witness :
  fst (write_csv (txt "sample.csv") [[txt "a"]; [txt "b"]] full_world) = true
  /\ cerr (snd (write_csv (txt "sample.csv") [[txt "a"]; [txt "b"]]
                  full_world)) = []
  /\ file_contents (txt "sample.csv")
       (snd (write_csv (txt "sample.csv") [[txt "a"]; [txt "b"]] full_world))
     = [].
Proof.
  apply (write_csv_buffered (txt "sample.csv") [[txt "a"]; [txt "b"]]
           full_world).
  - repeat constructor.
  - reflexivity.
  - reflexivity.
Defined.

(** C8. The text of a small Table waits in the buffer of the stream until
    [close()]; [write_csv] tests [fail()] before it closes the stream, so
    that on a device that takes nothing it returns [true], prints nothing
    on [std::cerr], and leaves the file empty. *)
Theorem write_csv_flush_error_unreported :
  fst (write_csv (txt "sample.csv") [[txt "a"; txt "b"]] full_world) = true
  /\ cerr (snd (write_csv (txt "sample.csv") [[txt "a"; txt "b"]] full_world))
     = []
  /\ file_contents (txt "sample.csv")
       (snd (write_csv (txt "sample.csv") [[txt "a"; txt "b"]] full_world))
     = [].
Proof. repeat split; vm_compute; reflexivity. Qed.

(** ** The loops of the reader *)

Lemma upto_from_comma b : upto_comma b ++ from_comma b = b.
Proof.
  induction b as [|x r IH]; cbn; [reflexivity|].
  destruct (x =? COMMA); cbn; [reflexivity|now rewrite IH].
Qed.

Lemma from_comma_cases b :
  from_comma b = [] \/ exists r, from_comma b = COMMA :: r.
Proof.
  induction b as [|x r IH]; cbn; [now left|].
  destruct (Ascii.eqb_spec x COMMA) as [->|_]; [right; now exists r|exact IH].
Qed.

Lemma upto_comma_no_comma b :
  COMMA ∉ b -> upto_comma b = b /\ from_comma b = [].
Proof.
  induction b as [|x r IH]; intros Hb; cbn; [now split|].
  apply not_elem_of_cons in Hb as [Hx Hr].
  destruct (Ascii.eqb_spec x COMMA) as [->|_]; [congruence|].
  destruct (IH Hr) as [-> ->]. now split.
Qed.

(** What [unquote] leaves starts with no quote, and was cut off the text. *)
Lemma unquote_rest b :
  exists raw, b = raw ++ snd (fst (unquote b))
    /\ head (snd (fst (unquote b))) <> Some DQUOTE
    /\ (snd (unquote b) = false -> snd (fst (unquote b)) = []).
Proof.
  remember (length b) as n eqn:Hn. revert b Hn.
  induction n as [n IH] using lt_wf_ind. intros b Hn.
  destruct b as [|x r]; cbn.
  - exists []. repeat split; congruence.
  - destruct (x =? DQUOTE).
    + destruct r as [|y r']; cbn.
      * exists [x]. repeat split; congruence.
      * destruct (Ascii.eqb_spec y DQUOTE) as [->|Hy].
        -- destruct (IH (length r') ltac:(cbn in Hn; lia) r' eq_refl)
             as (raw & Hraw & Hhd & Hcl).
           destruct (unquote r') as [[q rest] cl]. cbn in *.
           exists (x :: DQUOTE :: raw). rewrite Hraw at 1. now repeat split.
        -- exists [x]. repeat split; cbn; congruence.
    + destruct (IH (length r) ltac:(cbn in Hn; lia) r eq_refl)
        as (raw & Hraw & Hhd & Hcl).
      destruct (unquote r) as [[q rest] cl]. cbn in *.
      exists (x :: raw). rewrite Hraw at 1. now repeat split.
Qed.

(** The non-quoted loop takes the characters up to the next comma, or to
    the end of the line, whatever they are. *)
Lemma unquoted_loop_spec b : forall fuel c field,
  length b < fuel ->
  exists c',
    unquoted_loop fuel c field (IStream b goodbit)
    = (c', field ++ upto_comma b,
       IStream (from_comma b)
         (if empty (from_comma b) then set_eof goodbit else goodbit)).
Proof.
  induction b as [|x r IH]; intros [|fuel] c field Hlen; cbn in Hlen; try lia.
  - exists c. cbn. now rewrite app_nil_r.
  - cbn [unquoted_loop]. rewrite peek_good, to_int_type_not_EOF, peek_good.
    rewrite to_int_type_eqb. cbn [upto_comma from_comma].
    destruct (x =? COMMA).
    + exists c. cbn. now rewrite app_nil_r.
    + rewrite get_good.
      destruct (IH fuel x (field ++ [x]) ltac:(lia)) as (c' & ->).
      exists c'. now rewrite <- app_assoc.
Qed.

(** The quoted loop takes the content up to the closing quote. *)
Lemma quoted_loop_spec : forall fuel b c qc,
  length b < fuel ->
  exists c',
    quoted_loop fuel c qc (IStream b goodbit)
    = (c', qc ++ fst (fst (unquote b)),
       IStream (snd (fst (unquote b)))
         (if snd (unquote b)
          then if empty (snd (fst (unquote b))) then set_eof goodbit
               else goodbit
          else eof_fail)).
Proof.
  induction fuel as [|fuel IH]; intros b c qc Hlen; [lia|].
  destruct b as [|x r].
  - exists c. cbn. now rewrite app_nil_r.
  - cbn [quoted_loop]. rewrite get_good. flags.
    cbn [unquote]. destruct (x =? DQUOTE).
    + destruct r as [|y r'].
      * exists x. cbn. now rewrite app_nil_r.
      * rewrite peek_good, to_int_type_eqb.
        destruct (y =? DQUOTE).
        -- rewrite get_good.
           destruct (IH r' y (qc ++ [DQUOTE]) ltac:(cbn in Hlen; lia))
             as (c' & ->).
           exists c'. destruct (unquote r') as [[q rest] cl]. cbn.
           now rewrite <- app_assoc.
        -- exists x. cbn. now rewrite app_nil_r.
    + destruct (IH r x (qc ++ [x]) ltac:(cbn in Hlen; lia)) as (c' & ->).
      exists c'. destruct (unquote r) as [[q rest] cl]. cbn.
      now rewrite <- app_assoc.
Qed.

(** Reading one Field from a good stream. *)
Lemma read_field_spec c b :
  exists c',
    read_field c (IStream b goodbit)
    = (c', fst (scan_field c b),
       IStream (snd (scan_field c b))
         (if empty (snd (scan_field c b))
          then if (c =? DQUOTE) then eof_fail else set_eof goodbit
          else goodbit)).
Proof.
  unfold read_field, scan_field. cbn [rdbuf].
  destruct (c =? DQUOTE).
  - destruct (quoted_loop_spec (S (length b)) b c [] ltac:(lia)) as (c' & ->).
    destruct (unquote_rest b) as (_ & _ & _ & Hcl).
    destruct (unquote b) as [[q rest] cl]. cbn [fst snd app] in *.
    exists c'. destruct rest as [|y rest].
    + destruct cl; reflexivity.
    + destruct cl; [|now specialize (Hcl eq_refl)].
      cbn [empty]. rewrite peek_good, to_int_type_not_EOF, peek_good.
      reflexivity.
  - destruct (unquoted_loop_spec b (S (length b)) c ([] ++ [c]) ltac:(lia))
      as (c' & ->).
    exists c'. reflexivity.
Qed.

(** One round of the loop over the Fields, from a good stream. *)
Lemma field_round_nil c0 field row :
  field_round (c0, field, row, IStream [] goodbit)
  = inr (row, IStream [] eof_fail).
Proof. reflexivity. Qed.

Lemma field_round_spec c0 field row c b :
  exists c',
    field_round (c0, field, row, IStream (c :: b) goodbit)
    = match snd (scan_field c b) with
      | [] => inr (row ++ [fst (scan_field c b)], IStream [] eof_fail)
      | x :: r =>
          if (x =? COMMA)
          then inl (COMMA, [], row ++ [fst (scan_field c b)], IStream r goodbit)
          else inl (c', [], row ++ [fst (scan_field c b)],
                    IStream (x :: r) goodbit)
      end.
Proof.
  unfold field_round. rewrite get_good.
  flags.
  destruct (read_field_spec c b) as (c' & ->).
  exists c'. destruct (snd (scan_field c b)) as [|x r].
  - cbn [empty]. destruct (c =? DQUOTE); reflexivity.
  - cbn [empty]. rewrite peek_good, to_int_type_eqb.
    destruct (Ascii.eqb_spec x COMMA) as [->|_].
    + now rewrite get_good.
    + now rewrite peek_good, to_int_type_not_EOF.
Qed.

(** A round does not read the [c] it starts with: the variable is written
    by [get] before any test on it. *)
Lemma field_round_uninit c c' field row ls :
  field_round (c, field, row, ls) = field_round (c', field, row, ls).
Proof.
  unfold field_round, get. destruct (good (rdstate ls)).
  - destruct (rdbuf ls); reflexivity.
  - reflexivity.
Qed.

Lemma field_round_not_good c field row ls :
  good (rdstate ls) = false ->
  exists ls', field_round (c, field, row, ls) = inr (row, ls').
Proof.
  intros Hg. unfold field_round, get. rewrite Hg.
  exists (setstate set_fail ls).
  destruct ls as [b [e f bd]]. reflexivity.
Qed.

Lemma scan_field_length c b : length (snd (scan_field c b)) <= length b.
Proof.
  unfold scan_field. destruct (c =? DQUOTE).
  - destruct (unquote_rest b) as (raw & Hraw & _).
    destruct (unquote b) as [[q rest] cl]. cbn [fst snd] in *.
    apply (f_equal length) in Hraw. rewrite length_app in Hraw. lia.
  - cbn [snd]. pose proof (f_equal length (upto_from_comma b)) as Hlen.
    rewrite length_app in Hlen. lia.
Qed.

(** A round that does not leave the loop has extracted something. *)
Lemma field_round_decreases c field row ls c' field' row' ls' :
  field_round (c, field, row, ls) = inl (c', field', row', ls') ->
  rounds_bound ls' < rounds_bound ls.
Proof.
  destruct (good (rdstate ls)) eqn:Hg.
  - destruct ls as [b st]. cbn in Hg. apply good_goodbit in Hg as ->.
    destruct b as [|x b].
    + rewrite field_round_nil. discriminate.
    + destruct (field_round_spec c field row x b) as (c2 & ->).
      pose proof (scan_field_length x b) as Hlen.
      destruct (snd (scan_field x b)) as [|y r]; [discriminate|].
      cbn [length] in Hlen. unfold rounds_bound. cbn [rdstate rdbuf length].
      destruct (y =? COMMA); intros [= <- <- <- <-]; cbn; lia.
  - destruct (field_round_not_good c field row ls Hg) as (ls2 & ->).
    discriminate.
Qed.

(** More fuel than the bound changes nothing: the loop over the Fields
    leaves through its test or a [break], never for lack of fuel. *)
Lemma field_loop_fuel : forall fuel fuel' c field row ls,
  rounds_bound ls <= fuel -> rounds_bound ls <= fuel' ->
  field_loop fuel (c, field, row, ls) = field_loop fuel' (c, field, row, ls).
Proof.
  induction fuel as [|fuel IH]; intros fuel' c field row ls H1 H2.
  - unfold rounds_bound in H1. destruct (good (rdstate ls)); lia.
  - destruct fuel' as [|fuel'].
    + unfold rounds_bound in H2. destruct (good (rdstate ls)); lia.
    + cbn [field_loop].
      destruct (field_round (c, field, row, ls))
        as [[[[c1 f1] r1] ls1]|out] eqn:Hr;
        [|reflexivity].
      apply field_round_decreases in Hr. apply IH; lia.
Qed.

Lemma decode_line_fuel line fuel :
  length line < fuel ->
  decode_line line
  = let '(row, _) := field_loop fuel (NUL, [], [], stringstream line) in
    if negb (empty line) && (back line =? COMMA) then row ++ [[]] else row.
Proof.
  intros Hlen. unfold decode_line.
  rewrite (field_loop_fuel (S (length line)) fuel); [reflexivity| |];
    unfold rounds_bound; cbn; lia.
Qed.

(** A line that holds one Field and nothing after it. *)
Lemma decode_line_one_field c b :
  snd (scan_field c b) = [] ->
  decode_line (c :: b)
  = if (back (c :: b) =? COMMA)
    then [fst (scan_field c b); []] else [fst (scan_field c b)].
Proof.
  intros Hrest. unfold decode_line, stringstream. cbn [length field_loop].
  destruct (field_round_spec NUL [] [] c b) as (c' & ->). rewrite Hrest.
  cbn [empty negb andb]. destruct (back (c :: b) =? COMMA); reflexivity.
Qed.

(** ** The decoder on the lines of the scenarios *)

(** C3. The line [a,,c] does not decode to the three Fields [a], empty,
    [c]: the comma that follows the delimiter starts a non-quoted Field, and
    the Row is [a] and [,c]. *)
Theorem decode_line_empty_middle_field :
  decode_line (txt "a,,c") = [txt "a"; txt ",c"].
Proof. vm_compute. reflexivity. Qed.

(** C5. A line that ends in a comma decodes to a Row whose last Field is
    empty; [a,b,] decodes to [a], [b] and an empty Field. *)
Theorem decode_line_trailing_comma :
  (forall pre : text, exists row, decode_line (pre ++ [COMMA]) = row ++ [[]])
  /\ decode_line (txt "a,b,") = [txt "a"; txt "b"; txt ""].
Proof.
  split; [|vm_compute; reflexivity].
  intros pre. unfold decode_line.
  destruct (field_loop _ _) as [row ls]. exists row.
  assert (empty (pre ++ [COMMA]) = false) as -> by now destruct pre.
  unfold back. rewrite last_last. reflexivity.
Qed.

(** C6. [He said "hi"] is encoded as the same characters with both quotes
    doubled, between quotes, and that line decodes to the Field again. *)
Theorem quoted_field_scenario :
  escape_csv_field (txt "He said " ++ [DQUOTE] ++ txt "hi" ++ [DQUOTE])
  = [DQUOTE] ++ txt "He said " ++ [DQUOTE; DQUOTE] ++ txt "hi"
    ++ [DQUOTE; DQUOTE] ++ [DQUOTE]
  /\ decode_line ([DQUOTE] ++ txt "He said " ++ [DQUOTE; DQUOTE] ++ txt "hi"
                  ++ [DQUOTE; DQUOTE] ++ [DQUOTE])
     = [txt "He said " ++ [DQUOTE] ++ txt "hi" ++ [DQUOTE]].
Proof. split; vm_compute; reflexivity. Qed.

(** ** Where the Fields of a line start *)

Lemma scan_field_rest c b :
  exists raw, b = raw ++ snd (scan_field c b)
    /\ head (snd (scan_field c b)) <> Some DQUOTE.
Proof.
  unfold scan_field. destruct (c =? DQUOTE).
  - destruct (unquote_rest b) as (raw & Hraw & Hhd & _).
    destruct (unquote b) as [[q rest] cl]. cbn [fst snd] in *.
    now exists raw.
  - cbn [snd]. exists (upto_comma b). split.
    + now rewrite upto_from_comma.
    + destruct (from_comma_cases b) as [->|(r & ->)]; cbn;
        [congruence|intros [= H]; discriminate H].
Qed.

(** At the start of every round the stream is good and [field] is empty.
    What has been extracted so far is nothing, in the first round; or it
    ends with the comma that [get] has just taken as a delimiter, and that
    [c] still holds; or it is followed by a character that is no quote. *)
Lemma loop_head_invariant line : forall n c field row ls,
  loop_head line n = Some (c, field, row, ls) ->
  field = [] /\ rdstate ls = goodbit /\
  exists consumed,
    line = consumed ++ rdbuf ls /\ n <= length consumed /\
    ((n = 0 /\ consumed = [])
     \/ (c = COMMA /\ exists pre, consumed = pre ++ [COMMA])
     \/ head (rdbuf ls) <> Some DQUOTE).
Proof.
  induction n as [|n IH]; intros c field row ls Hhead.
  - injection Hhead as <- <- <- <-. repeat split.
    exists []. repeat split; [cbn; lia|now left].
  - cbn [loop_head] in Hhead.
    destruct (loop_head line n) as [[[[c0 f0] r0] [b0 st0]]|]; [|discriminate].
    destruct (IH c0 f0 r0 _ eq_refl) as (-> & Hst & consumed & Hline & Hn & _).
    cbn [rdstate rdbuf] in *. subst st0.
    destruct b0 as [|x b]; [rewrite field_round_nil in Hhead; discriminate|].
    destruct (field_round_spec c0 [] r0 x b) as (c' & Hround).
    rewrite Hround in Hhead. clear Hround.
    destruct (scan_field_rest x b) as (raw & Hraw & Hhd).
    destruct (snd (scan_field x b)) as [|y r]; [discriminate|].
    destruct (Ascii.eqb_spec y COMMA) as [->|Hy];
      injection Hhead as <- <- <- <-; repeat split; cbn [rdbuf].
    + exists (consumed ++ x :: raw ++ [COMMA]). repeat split.
      * rewrite Hline, Hraw, <- !app_assoc. cbn. now rewrite <- app_assoc.
      * rewrite !length_app. cbn. lia.
      * right. left. split; [reflexivity|]. exists (consumed ++ x :: raw).
        rewrite <- app_assoc. reflexivity.
    + exists (consumed ++ x :: raw). repeat split.
      * rewrite Hline, Hraw, <- !app_assoc. reflexivity.
      * rewrite !length_app. cbn. lia.
      * right. right. exact Hhd.
Qed.

(** ** The loop over the lines *)

Lemma split_line_LF line rest :
  LF ∉ line -> split_line (line ++ LF :: rest) = (line, Some rest).
Proof.
  induction line as [|x line IH]; intros Hno; cbn.
  - reflexivity.
  - apply not_elem_of_cons in Hno as [Hx Hno].
    destruct (Ascii.eqb_spec x LF) as [->|_]; [congruence|].
    now rewrite IH.
Qed.

Lemma split_line_length b l rest :
  split_line b = (l, Some rest) -> length rest < length b.
Proof.
  revert l. induction b as [|x b IH]; intros l; cbn; [discriminate|].
  destruct (x =? LF).
  - intros [= <- <-]. lia.
  - destruct (split_line b) as [l' [r'|]]; intros [= <- <-].
    specialize (IH l' eq_refl). lia.
Qed.

Lemma split_line_None b l :
  split_line b = (l, None) -> l = b.
Proof.
  revert l. induction b as [|x b IH]; intros l; cbn.
  - now intros [= <-].
  - destruct (x =? LF); [discriminate|].
    destruct (split_line b) as [l' [r'|]]; intros [= <-].
    now rewrite (IH l' eq_refl).
Qed.

(** A line that ends with a line feed is decoded, once its carriage return
    is removed, and gives one Row. *)
Lemma line_round_LF l0 data line rest :
  LF ∉ line ->
  line_round (l0, data, IStream (line ++ LF :: rest) goodbit)
  = inl (strip_cr line, data ++ [decode_line (strip_cr line)],
         IStream rest goodbit).
Proof.
  intros Hno. unfold line_round, getline. flags.
  rewrite split_line_LF by exact Hno.
  flags.
  fold (strip_cr line). now rewrite andb_false_r.
Qed.

Lemma line_round_nil l0 data :
  line_round (l0, data, IStream [] goodbit) = inr (data, IStream [] eof_fail).
Proof. reflexivity. Qed.

Lemma line_round_not_good l0 data s :
  good (rdstate s) = false ->
  line_round (l0, data, s) = inr (data, setstate set_fail s).
Proof.
  intros Hg. unfold line_round, getline. rewrite Hg.
  destruct s as [b [e f bd]]. reflexivity.
Qed.

Lemma line_round_decreases l0 data s l1 data1 s1 :
  line_round (l0, data, s) = inl (l1, data1, s1) ->
  rounds_bound s1 < rounds_bound s.
Proof.
  destruct (good (rdstate s)) eqn:Hg.
  - destruct s as [b st]. cbn in Hg. apply good_goodbit in Hg as ->.
    unfold line_round, getline. flags.
    destruct (split_line b) as [l [rest|]] eqn:Hsplit.
    + apply split_line_length in Hsplit.
      flags.
      rewrite andb_false_r. intros [= <- <- <-].
      unfold rounds_bound. cbn. lia.
    + apply split_line_None in Hsplit as ->.
      destruct b as [|x b]; [discriminate|].
      cbn [empty ok eof rdstate fail set_eof goodbit
           eofbit failbit badbit orb negb].
      unfold rounds_bound.
      destruct (empty _ && true); intros [= <- <- <-]; cbn; lia.
  - rewrite line_round_not_good by exact Hg. discriminate.
Qed.

(** More fuel than the bound changes nothing for the loop over the lines. *)
Lemma line_loop_fuel : forall fuel fuel' l data s,
  rounds_bound s <= fuel -> rounds_bound s <= fuel' ->
  line_loop fuel (l, data, s) = line_loop fuel' (l, data, s).
Proof.
  induction fuel as [|fuel IH]; intros fuel' l data s H1 H2.
  - unfold rounds_bound in H1. destruct (good (rdstate s)); lia.
  - destruct fuel' as [|fuel'].
    + unfold rounds_bound in H2. destruct (good (rdstate s)); lia.
    + cbn [line_loop].
      destruct (line_round (l, data, s)) as [[[l1 d1] s1]|out] eqn:Hr;
        [|reflexivity].
      apply line_round_decreases in Hr. apply IH; lia.
Qed.

(** The Rows already read stay in front of those the loop adds. *)
Lemma line_round_data l data s :
  line_round (l, data, s)
  = match line_round (l, [], s) with
    | inl (l', rows, s') => inl (l', data ++ rows, s')
    | inr (rows, s') => inr (data ++ rows, s')
    end.
Proof.
  unfold line_round. destruct (getline l s) as [line infile].
  destruct (negb (ok infile)); [now rewrite app_nil_r|].
  destruct (empty _ && eof infile); [now rewrite app_nil_r|].
  reflexivity.
Qed.

Lemma line_loop_data : forall fuel l data s,
  fst (line_loop fuel (l, data, s))
  = data ++ fst (line_loop fuel (l, [], s)).
Proof.
  induction fuel as [|fuel IH]; intros l data s.
  - cbn. now rewrite app_nil_r.
  - cbn [line_loop]. rewrite (line_round_data l data s).
    destruct (line_round (l, [], s)) as [[[l1 rows] s1]|[rows s1]].
    + rewrite IH, (IH l1 rows s1). now rewrite app_assoc.
    + reflexivity.
Qed.

Lemma line_loop_bad : forall fuel l data s,
  bad (snd (line_loop fuel (l, data, s))) = bad s.
Proof.
  induction fuel as [|fuel IH]; intros l data s; [reflexivity|].
  cbn [line_loop].
  assert (bad (snd (getline l s)) = bad s) as Hget.
  { unfold getline. destruct (good (rdstate s)).
    - destruct (split_line (rdbuf s)) as [l' [rest|]]; [reflexivity|].
      destruct l'; reflexivity.
    - reflexivity. }
  unfold line_round. destruct (getline l s) as [line infile].
  cbn [snd] in Hget.
  destruct (negb (ok infile)); [exact Hget|].
  destruct (empty _ && eof infile); now rewrite IH.
Qed.

(** The loop does not read the [line] it is entered with. *)
Lemma line_loop_line fuel l l' data s :
  line_loop fuel (l, data, s) = line_loop fuel (l', data, s).
Proof.
  destruct fuel as [|fuel]; [reflexivity|]. cbn [line_loop].
  assert (line_round (l, data, s) = line_round (l', data, s)) as ->;
    [|reflexivity].
  destruct (good (rdstate s)) eqn:Hg.
  - unfold line_round, getline. now rewrite Hg.
  - now rewrite !line_round_not_good by exact Hg.
Qed.

Lemma read_text_nil : read_text [] = [].
Proof. reflexivity. Qed.

(** Reading a text line by line. *)
Lemma read_text_line line rest :
  LF ∉ line ->
  read_text (line ++ LF :: rest)
  = decode_line (strip_cr line) :: read_text rest.
Proof.
  intros Hno. unfold read_text.
  set (tail := line_loop (S (length rest)) ([], [], IStream rest goodbit)).
  cbn [line_loop]. rewrite line_round_LF by exact Hno.
  rewrite line_loop_data. cbn [app]. f_equal. f_equal. subst tail.
  rewrite (line_loop_line _ (strip_cr line) []).
  apply line_loop_fuel; unfold rounds_bound;
    flags;
    rewrite ?length_app; cbn [length]; lia.
Qed.

Lemma read_text_lines lines rest :
  Forall (fun l => LF ∉ l) lines ->
  read_text (lines_text lines ++ rest)
  = map (fun l => decode_line (strip_cr l)) lines ++ read_text rest.
Proof.
  induction 1 as [|l lines Hl _ IH].
  - reflexivity.
  - unfold lines_text. cbn [flat_map map]. fold (lines_text lines).
    rewrite <- !app_assoc. cbn [app].
    rewrite read_text_line by exact Hl. now rewrite IH.
Qed.

(** [read_csv] on a file that exists decodes its contents and prints
    nothing. *)
Lemma read_csv_contents filename contents w :
  files w !! filename = Some contents ->
  read_csv filename w = (read_text contents, w).
Proof.
  intros Hfile. unfold read_csv, ifstream_open. rewrite Hfile.
  cbn [negb rdbuf].
  pose proof (line_loop_bad (S (length contents)) [] []
                (IStream contents goodbit)) as Hbad.
  unfold read_text.
  destruct (line_loop _ _) as [data infile]. cbn [fst snd] in *.
  rewrite Hbad. reflexivity.
Qed.

(** C9. When the file cannot be opened, [read_csv] returns a Table with no
    Row, and the failure is printed on [std::cerr]. *)
Theorem read_csv_unopenable (filename : text) (w : world) :
  files w !! filename = None ->
  fst (read_csv filename w) = []
  /\ cerr (snd (read_csv filename w))
     = cerr w ++ txt "Error: Could not open file " ++ filename
       ++ txt " for reading." ++ [LF].
Proof.
  intros Hfile. unfold read_csv, ifstream_open. rewrite Hfile.
  cbn [negb fst snd cerr_endl cerr]. split; [reflexivity|].
  now rewrite <- !app_assoc.
Qed.

Lemma read_csv_unopenable_witness :
  fst (read_csv (txt "missing.csv") blank_world) = []
  /\ cerr (snd (read_csv (txt "missing.csv") blank_world))
     = txt "Error: Could not open file missing.csv for reading." ++ [LF].
Proof.
  apply (read_csv_unopenable (txt "missing.csv") blank_world).
  reflexivity.
Defined.

(** ** Writing, then reading *)

Lemma back_app s x t : back (s ++ x :: t) = back (x :: t).
Proof.
  unfold back. induction s as [|y s IH]; [reflexivity|].
  cbn [app]. rewrite <- IH. destruct (s ++ x :: t) eqn:E; [|reflexivity].
  now destruct s.
Qed.

Lemma back_snoc s x : back (s ++ [x]) = x.
Proof. unfold back. apply last_last. Qed.

Lemma back_elem_of x s : back (x :: s) ∈ x :: s.
Proof.
  revert x. induction s as [|y s IH]; intros x.
  - left.
  - right. apply (IH y).
Qed.

Lemma existsb_special_false f :
  existsb special f = false -> Forall (fun c => special c = false) f.
Proof.
  induction f as [|c f IH]; cbn; [constructor|].
  intros H. apply orb_false_iff in H as [Hc Hf]. constructor; auto.
Qed.

Lemma special_false c :
  special c = false -> c <> COMMA /\ c <> LF /\ c <> DQUOTE.
Proof.
  intros H. repeat split; intros ->; discriminate H.
Qed.

Lemma double_quotes_LF f : LF ∉ f -> LF ∉ double_quotes f.
Proof.
  induction f as [|c f IH]; intros Hno; cbn; [exact Hno|].
  apply not_elem_of_cons in Hno as [Hc Hf]. specialize (IH Hf).
  fold (double_quotes f).
  destruct (c =? DQUOTE); cbn; rewrite ?not_elem_of_cons; repeat split;
    try assumption; discriminate.
Qed.

Lemma escape_csv_field_LF f : LF ∉ f -> LF ∉ escape_csv_field f.
Proof.
  intros Hno. rewrite escape_csv_field_eq.
  destruct (existsb special f); [|exact Hno].
  cbn. rewrite not_elem_of_cons, not_elem_of_app, not_elem_of_cons.
  repeat split; try discriminate.
  - now apply double_quotes_LF.
  - apply not_elem_of_nil.
Qed.

(** Doubling the quotes and closing the Field is undone by [unquote]. *)
Lemma unquote_double_quotes f rest :
  head rest <> Some DQUOTE ->
  unquote (double_quotes f ++ DQUOTE :: rest) = (f, rest, true).
Proof.
  intros Hrest. induction f as [|c f IH].
  - cbn. destruct rest as [|y r]; [reflexivity|].
    destruct (Ascii.eqb_spec y DQUOTE) as [->|_]; [now contradiction Hrest|].
    reflexivity.
  - cbn [double_quotes flat_map]. fold (double_quotes f).
    destruct (Ascii.eqb_spec c DQUOTE) as [->|Hc].
    + cbn. now rewrite IH.
    + cbn. apply Ascii.eqb_neq in Hc. rewrite Hc. now rewrite IH.
Qed.

Lemma upto_comma_app p rest :
  Forall (fun c => special c = false) p ->
  rest = [] \/ (exists r, rest = COMMA :: r) ->
  upto_comma (p ++ rest) = p /\ from_comma (p ++ rest) = rest.
Proof.
  intros Hp Hrest. induction Hp as [|c p Hc _ IH]; cbn.
  - destruct Hrest as [->|(r & ->)]; now split.
  - apply special_false in Hc as (Hc & _). apply Ascii.eqb_neq in Hc.
    rewrite Hc. destruct IH as [-> ->]. now split.
Qed.

(** The encoding of a Field that is not empty, followed by the end of the
    line or by a comma, is scanned as that Field. *)
Lemma scan_field_encoded f rest :
  f <> [] ->
  rest = [] \/ (exists r, rest = COMMA :: r) ->
  exists c b,
    escape_csv_field f ++ rest = c :: b /\ scan_field c b = (f, rest).
Proof.
  intros Hf Hrest. rewrite escape_csv_field_eq.
  destruct (existsb special f) eqn:Hs.
  - exists DQUOTE, (double_quotes f ++ DQUOTE :: rest). split.
    + cbn. now rewrite <- app_assoc.
    + unfold scan_field. rewrite Ascii.eqb_refl, unquote_double_quotes;
        [reflexivity|].
      destruct Hrest as [->|(r & ->)]; cbn; [congruence|].
      intros [= H]; discriminate H.
  - destruct f as [|c f]; [congruence|]. exists c, (f ++ rest). split.
    + reflexivity.
    + apply existsb_special_false in Hs.
      inversion Hs as [|? ? Hc Hrestf]; subst.
      destruct (upto_comma_app f rest Hrestf Hrest) as [Hu Hfc].
      apply special_false in Hc as (_ & _ & Hc). apply Ascii.eqb_neq in Hc.
      unfold scan_field. now rewrite Hc, Hu, Hfc.
Qed.

Lemma row_text_cons f g rest :
  row_text (f :: g :: rest)
  = escape_csv_field f ++ COMMA :: row_text (g :: rest).
Proof. reflexivity. Qed.

(** The loop over the Fields, on the text of a Row without empty Field,
    rebuilds the Row. *)
Lemma field_loop_row_text : forall row acc fuel c0,
  Forall (fun f => f <> []) row ->
  length (row_text row) < fuel ->
  field_loop fuel (c0, [], acc, IStream (row_text row) goodbit)
  = (acc ++ row, IStream [] eof_fail).
Proof.
  induction row as [|f [|g rest] IH]; intros acc fuel c0 Hrow Hlen;
    (destruct fuel as [|fuel]; [lia|]); cbn [field_loop].
  - cbn. now rewrite app_nil_r.
  - inversion Hrow as [|? ? Hf _]; subst.
    destruct (scan_field_encoded f [] Hf (or_introl eq_refl))
      as (c & b & Henc & Hscan).
    rewrite app_nil_r in Henc. change (row_text [f]) with (escape_csv_field f).
    rewrite Henc. destruct (field_round_spec c0 [] acc c b) as (c' & ->).
    rewrite Hscan. reflexivity.
  - inversion Hrow as [|? ? Hf Hrest]; subst.
    destruct (scan_field_encoded f (COMMA :: row_text (g :: rest)) Hf
                (or_intror (ex_intro _ _ eq_refl)))
      as (c & b & Henc & Hscan).
    rewrite row_text_cons in *. rewrite Henc in *.
    destruct (field_round_spec c0 [] acc c b) as (c' & ->).
    rewrite Hscan. cbn [fst snd]. rewrite Ascii.eqb_refl.
    rewrite IH; [now rewrite <- app_assoc|exact Hrest|].
    apply (f_equal length) in Henc. rewrite length_app in Henc.
    pose proof (scan_field_length c b) as Hb. rewrite Hscan in Hb.
    cbn [snd length] in *. lia.
Qed.

(** The text of a Row ends as the encoding of its last Field does. *)
Lemma row_text_last row f :
  last row = Some f -> exists pre, row_text row = pre ++ escape_csv_field f.
Proof.
  induction row as [|g [|h rest] IH]; intros Hlast.
  - discriminate.
  - injection Hlast as ->. now exists [].
  - rewrite last_cons_cons in Hlast. destruct (IH Hlast) as (pre & Hpre).
    exists (escape_csv_field g ++ COMMA :: pre).
    rewrite row_text_cons, Hpre, <- app_assoc. reflexivity.
Qed.

Lemma escape_csv_field_back f :
  f <> [] ->
  exists x t, escape_csv_field f = x :: t
    /\ back (x :: t) <> COMMA
    /\ ((existsb special f = false -> back f <> CR) -> back (x :: t) <> CR).
Proof.
  intros Hf. rewrite escape_csv_field_eq.
  destruct (existsb special f) eqn:Hs.
  - exists DQUOTE, (double_quotes f ++ [DQUOTE]). split; [reflexivity|].
    change (DQUOTE :: double_quotes f ++ [DQUOTE])
      with (([DQUOTE] ++ double_quotes f) ++ [DQUOTE]).
    rewrite back_snoc. split; [discriminate|]. intros _. discriminate.
  - destruct f as [|x t]; [congruence|]. exists x, t.
    split; [reflexivity|]. split; [|auto].
    apply existsb_special_false in Hs.
    rewrite Forall_forall in Hs.
    specialize (Hs _ (back_elem_of x t)).
    now apply special_false in Hs as (Hc & _).
Qed.

Lemma row_text_LF row :
  Forall (fun f => f <> [] /\ (LF ∉ f)) row -> LF ∉ row_text row.
Proof.
  induction row as [|f [|g rest] IH]; intros Hrow.
  - apply not_elem_of_nil.
  - inversion Hrow as [|? ? [_ Hf] _]; subst. now apply escape_csv_field_LF.
  - inversion Hrow as [|? ? [_ Hf] Hrest]; subst.
    rewrite row_text_cons, not_elem_of_app, not_elem_of_cons.
    repeat split; [now apply escape_csv_field_LF|discriminate|now apply IH].
Qed.

(** The text of a Row without empty Field does not end with a comma, nor
    with a carriage return when its last Field was given none to keep. *)
Lemma row_text_back row :
  Forall (fun f : text => f <> []) row ->
  negb (empty (row_text row)) && (back (row_text row) =? COMMA) = false
  /\ ((forall f, last row = Some f ->
         existsb special f = false -> back f <> CR) ->
      negb (empty (row_text row)) && (back (row_text row) =? CR) = false).
Proof.
  intros Hne. destruct (last row) as [f|] eqn:Hlast.
  - destruct (row_text_last row f Hlast) as (pre & ->).
    assert (f <> []) as Hf.
    { apply last_Some_elem_of in Hlast.
      rewrite Forall_forall in Hne. now apply Hne. }
    destruct (escape_csv_field_back f Hf) as (x & t & -> & Hc & Hr).
    rewrite back_app. apply Ascii.eqb_neq in Hc. rewrite Hc.
    split; [now rewrite andb_false_r|]. intros Hcr.
    specialize (Hr (Hcr f eq_refl)). apply Ascii.eqb_neq in Hr.
    now rewrite Hr, andb_false_r.
  - apply last_None in Hlast as ->. now split.
Qed.

(** The line written for a Row without empty Field decodes to that Row. *)
Lemma decode_line_of_row_text row :
  Forall (fun f : text => f <> []) row -> decode_line (row_text row) = row.
Proof.
  intros Hne. destruct (row_text_back row Hne) as [Hcomma _].
  unfold decode_line, stringstream. rewrite Hcomma.
  rewrite field_loop_row_text; [reflexivity|exact Hne|lia].
Qed.

(** The decoder alone undoes the encoder on every Field but the empty one,
    line feeds and carriage returns included: those are lost by the loop
    over the lines, not by the decoder. *)
Lemma decode_line_escape_csv_field f :
  f <> [] -> decode_line (escape_csv_field f) = [f].
Proof.
  intros Hf. apply (decode_line_of_row_text [f]). now repeat constructor.
Qed.

(** The line written for a Row that survives is left as it is by the
    reader, and decodes to that Row. *)
Lemma decode_line_row_text row :
  row_survives row ->
  strip_cr (row_text row) = row_text row
  /\ decode_line (row_text row) = row.
Proof.
  intros [Hrow Hcr].
  assert (Forall (fun f : text => f <> []) row) as Hne.
  { eapply Forall_impl; [exact Hrow|]. now intros f [Hf _]. }
  split; [|now apply decode_line_of_row_text].
  destruct (row_text_back row Hne) as [_ Hret].
  unfold strip_cr. now rewrite (Hret Hcr).
Qed.

(** Reading the text of a Table whose Rows survive gives the Table. *)
Lemma read_text_table_text data :
  Forall row_survives data -> read_text (table_text data) = data.
Proof.
  induction 1 as [|row data Hrow _ IH].
  - reflexivity.
  - unfold table_text. cbn [flat_map]. fold (table_text data).
    rewrite <- app_assoc. cbn [app].
    rewrite read_text_line by (apply row_text_LF, Hrow).
    destruct (decode_line_row_text row Hrow) as [-> ->].
    now rewrite IH.
Qed.

(** What is read from the file after a write that went through. *)
Lemma read_csv_after_write_csv filename data w :
  Forall (fun row => fits_size_t (length row)) data ->
  writes_through w filename ->
  fst (read_csv filename (snd (write_csv filename data w)))
  = read_text (table_text data).
Proof.
  intros Hfit Hthrough. rewrite write_csv_success by assumption.
  rewrite (read_csv_contents filename (table_text data)); [reflexivity|].
  unfold set_file. cbn [snd files]. apply lookup_insert_eq.
Qed.

(** A Table whose Rows survive is read back as it was written. *)
Lemma read_csv_write_csv filename data w :
  Forall (fun row => fits_size_t (length row)) data ->
  writes_through w filename ->
  Forall row_survives data ->
  fst (read_csv filename (snd (write_csv filename data w))) = data.
Proof.
  intros Hfit Hthrough Hdata. rewrite read_csv_after_write_csv by assumption.
  now apply read_text_table_text.
Qed.

Lemma double_quotes_elem_of c f : c ∈ f -> c ∈ double_quotes f.
Proof.
  induction f as [|x f IH]; intros Hc; [exact Hc|].
  cbn [double_quotes flat_map]. fold (double_quotes f).
  apply elem_of_cons in Hc as [->|Hc].
  - destruct (Ascii.eqb_spec x DQUOTE) as [->|_]; left.
  - apply elem_of_app. right. now apply IH.
Qed.

Lemma escape_csv_field_elem_of c f : c ∈ f -> c ∈ escape_csv_field f.
Proof.
  intros Hc. rewrite escape_csv_field_eq.
  destruct (existsb special f); [|exact Hc].
  cbn. right. apply elem_of_app. left. now apply double_quotes_elem_of.
Qed.

(** A text with a line feed in it gives at least one Row. *)
Lemma read_text_elem_of_LF t :
  LF ∈ t -> exists row rest l, t = l ++ LF :: rest
    /\ read_text t = row :: read_text rest.
Proof.
  intros Hin. apply list_elem_of_split_l in Hin as (l & rest & -> & Hl).
  exists (decode_line (strip_cr l)), rest, l.
  split; [reflexivity|now apply read_text_line].
Qed.

(** The Fields that survive are the only ones that are read back. *)
Lemma survives_of_round_trip filename f w :
  writes_through w filename ->
  fst (read_csv filename (snd (write_csv filename [[f]] w))) = [[f]] ->
  survives f.
Proof.
  intros Hthrough.
  rewrite read_csv_after_write_csv; [|repeat constructor|exact Hthrough].
  unfold table_text, row_text. cbn [flat_map map join].
  rewrite app_nil_r. intros Hread.
  assert (LF ∉ f) as Hlf.
  { intros Hin. apply escape_csv_field_elem_of in Hin.
    apply list_elem_of_split_l in Hin as (l & rest & Hsplit & Hl).
    rewrite Hsplit, <- app_assoc in Hread. cbn [app] in Hread.
    rewrite read_text_line in Hread by exact Hl.
    destruct (read_text_elem_of_LF (rest ++ [LF])) as (row & r & l' & _ & Hr).
    { apply elem_of_app. right. left. }
    rewrite Hr in Hread. discriminate Hread. }
  rewrite read_text_line in Hread by now apply escape_csv_field_LF.
  rewrite read_text_nil in Hread. injection Hread as Hread.
  repeat split; [|exact Hlf|].
  - intros ->. discriminate Hread.
  - intros Hs Hcr. rewrite escape_csv_field_eq, Hs in Hread.
    destruct f as [|x f]; [discriminate Hcr|].
    unfold strip_cr in Hread. cbn [empty negb andb] in Hread.
    apply Ascii.eqb_eq in Hcr. rewrite Hcr in Hread. unfold pop_back in Hread.
    assert (length (removelast (x :: f)) < length (x :: f)) as Hlen.
    { rewrite (app_removelast_last NUL (l := x :: f)) at 2 by discriminate.
      rewrite length_app. cbn. lia. }
    destruct (removelast (x :: f)) as [|y g] eqn:Hg; [discriminate Hread|].
    assert (existsb special (y :: g) = false) as Hsg.
    { apply not_true_is_false. intros Hex.
      apply existsb_exists in Hex as (c & Hin & Hc).
      assert (existsb special (x :: f) = true) as Hex'; [|congruence].
      apply existsb_exists. exists c. split; [|exact Hc].
      rewrite (app_removelast_last NUL (l := x :: f)) by discriminate.
      rewrite Hg. apply in_or_app. now left. }
    pose proof (decode_line_of_row_text [y :: g]) as Hdec.
    unfold row_text in Hdec. cbn [map join] in Hdec.
    rewrite escape_csv_field_eq, Hsg in Hdec.
    rewrite Hdec in Hread by (repeat constructor; discriminate).
    injection Hread as Hy Hgf. subst. cbn in Hlen. lia.
Qed.

(** Rows of different lengths are read back as well. *)
Example ragged_table_read_back :
  fst (read_csv (txt "sample.csv")
         (snd (write_csv (txt "sample.csv")
                 [[txt "a"; txt "b"]; [txt "c,d"; txt "e"; txt "f"]]
                 blank_world)))
  = [[txt "a"; txt "b"]; [txt "c,d"; txt "e"; txt "f"]].
Proof. vm_compute. reflexivity. Qed.

(** C1. A Field with a line feed in it is not read back: [write_csv]
    writes [a], a line feed and [b] as one quoted Field, and [read_csv],
    which cuts the file into lines before it looks at the quotes, returns
    two Rows, [a] and [b] followed by a quote. *)
Theorem line_feed_field_not_read_back :
  written_alone (txt "a" ++ [LF] ++ txt "b") = true
  /\ file_contents (txt "sample.csv")
       (snd (write_csv (txt "sample.csv") [[txt "a" ++ [LF] ++ txt "b"]]
               blank_world))
     = [DQUOTE] ++ txt "a" ++ [LF] ++ txt "b" ++ [DQUOTE] ++ [LF]
  /\ read_back (txt "a" ++ [LF] ++ txt "b")
     = [[txt "a"]; [txt "b" ++ [DQUOTE]]].
Proof. repeat split; vm_compute; reflexivity. Qed.

(** Three Fields that are not read back. With a line feed in it, a Field
    is cut in two Rows: the reader splits the file into lines before it
    looks at the quotes. The carriage return that ends a Field written
    without quotes is removed with the end of the line. An empty Field
    gives an empty line, hence a Row without Field. *)
Lemma fields_not_read_back :
  (written_alone (txt "a" ++ [LF] ++ txt "b") = true
   /\ read_back (txt "a" ++ [LF] ++ txt "b") <> [[txt "a" ++ [LF] ++ txt "b"]])
  /\ (written_alone (txt "a" ++ [CR]) = true
      /\ read_back (txt "a" ++ [CR]) <> [[txt "a" ++ [CR]]])
  /\ (written_alone (txt "") = true /\ read_back (txt "") <> [[txt ""]]).
Proof.
  repeat split; try (vm_compute; reflexivity); vm_compute; discriminate.
Qed.

Example carriage_return_read_back :
  read_back (txt "a" ++ [CR]) = [[txt "a"]].
Proof. vm_compute. reflexivity. Qed.

Example empty_field_read_back : read_back (txt "") = [[]].
Proof. vm_compute. reflexivity. Qed.

(** C4. An empty line decodes to a Row without any Field: wherever an
    empty line stands in a file, the Table read from the file has, at that
    place, exactly one Row, and that Row is empty. *)
Theorem empty_line_empty_row :
  decode_line [] = []
  /\ (forall (filename : text) (lines : list text) (rest : text) (w : world),
        Forall (fun l => LF ∉ l) lines ->
        files w !! filename = Some (lines_text lines ++ LF :: rest) ->
        fst (read_csv filename w)
        = map (fun l => decode_line (strip_cr l)) lines
          ++ [] :: read_text rest).
Proof.
  split; [reflexivity|].
  intros filename lines rest w Hlines Hfile.
  rewrite (read_csv_contents filename _ w Hfile). cbn [fst].
  rewrite read_text_lines by exact Hlines. f_equal.
  exact (read_text_line [] rest (not_elem_of_nil LF)).
Qed.

Lemma empty_line_empty_row_witness :
  fst (read_csv (txt "blank.csv") blank_line_world) = [[]].
Proof.
  apply (proj2 empty_line_empty_row (txt "blank.csv") [] [] blank_line_world).
  - constructor.
  - vm_compute. reflexivity.
Defined.

(** An empty line does not decode to a Row with one empty Field. *)
Lemma empty_line_not_one_field :
  decode_line (txt "") <> [txt ""]
  /\ fst (read_csv (txt "blank.csv") blank_line_world) <> [[txt ""]].
Proof.
  split; vm_compute; discriminate.
Qed.

(** ** The loops leave by themselves

    With the fuel they are given, the loops of the reader end because their
    test fails or a [break] is reached: the result is the one of the round
    that leaves the loop. *)

Lemma field_loop_leaves line : forall fuel n c field row ls,
  loop_head line n = Some (c, field, row, ls) ->
  rounds_bound ls <= fuel ->
  exists m v,
    loop_head line m = Some v
    /\ field_round v = inr (field_loop fuel (c, field, row, ls)).
Proof.
  induction fuel as [|fuel IH]; intros n c field row ls Hhead Hfuel.
  - unfold rounds_bound in Hfuel. destruct (good (rdstate ls)); lia.
  - cbn [field_loop].
    destruct (field_round (c, field, row, ls))
      as [[[[c1 f1] r1] ls1]|out] eqn:Hr.
    + apply (IH (S n)).
      * cbn [loop_head]. now rewrite Hhead, Hr.
      * apply field_round_decreases in Hr. lia.
    + now exists n, (c, field, row, ls).
Qed.

Lemma decode_line_leaves line :
  exists m v out,
    loop_head line m = Some v /\ field_round v = inr out
    /\ decode_line line
       = if negb (empty line) && (back line =? COMMA)
         then fst out ++ [[]] else fst out.
Proof.
  destruct (field_loop_leaves line (S (length line)) 0 NUL [] []
              (stringstream line) eq_refl) as (m & v & Hm & Hout).
  { unfold rounds_bound. cbn. lia. }
  exists m, v, (field_loop (S (length line)) (NUL, [], [], stringstream line)).
  repeat split; [exact Hm|exact Hout|].
  unfold decode_line. now destruct (field_loop _ _).
Qed.

Lemma line_loop_leaves contents : forall fuel n l data s,
  line_head contents n = Some (l, data, s) ->
  rounds_bound s <= fuel ->
  exists m v,
    line_head contents m = Some v
    /\ line_round v = inr (line_loop fuel (l, data, s)).
Proof.
  induction fuel as [|fuel IH]; intros n l data s Hhead Hfuel.
  - unfold rounds_bound in Hfuel. destruct (good (rdstate s)); lia.
  - cbn [line_loop].
    destruct (line_round (l, data, s)) as [[[l1 d1] s1]|out] eqn:Hr.
    + apply (IH (S n)).
      * cbn [line_head]. now rewrite Hhead, Hr.
      * apply line_round_decreases in Hr. lia.
    + now exists n, (l, data, s).
Qed.

Lemma read_text_leaves contents :
  exists m v out,
    line_head contents m = Some v /\ line_round v = inr out
    /\ read_text contents = fst out.
Proof.
  destruct (line_loop_leaves contents (S (length contents)) 0 [] []
              (IStream contents goodbit) eq_refl) as (m & v & Hm & Hout).
  { unfold rounds_bound. cbn. lia. }
  exists m, v,
    (line_loop (S (length contents)) ([], [], IStream contents goodbit)).
  now repeat split.
Qed.

(** ** The lines of the demonstration

    The lines [main] writes to [test_complex.csv], decoded. *)

Example demo_header_line :
  decode_line (txt "Header1,Header2 with comma,Header3" ++ [DQUOTE; DQUOTE]
               ++ txt "escaped" ++ [DQUOTE; DQUOTE] ++ txt " quotes")
  = [txt "Header1"; txt "Header2 with comma";
     txt "Header3" ++ [DQUOTE; DQUOTE] ++ txt "escaped" ++ [DQUOTE; DQUOTE]
     ++ txt " quotes"].
Proof. vm_compute. reflexivity. Qed.

Example demo_quoted_line :
  decode_line (txt "data1," ++ [DQUOTE] ++ txt "data2, still data2"
               ++ [DQUOTE] ++ txt "," ++ [DQUOTE] ++ txt "data3 with "
               ++ [DQUOTE; DQUOTE; DQUOTE; DQUOTE] ++ txt "quotes"
               ++ [DQUOTE; DQUOTE; DQUOTE; DQUOTE])
  = [txt "data1"; txt "data2, still data2";
     txt "data3 with " ++ [DQUOTE; DQUOTE] ++ txt "quotes"
     ++ [DQUOTE; DQUOTE]].
Proof. vm_compute. reflexivity. Qed.

Example demo_empty_field_line :
  decode_line (txt "data4,,empty field before this")
  = [txt "data4"; txt ",empty field before this"].
Proof. vm_compute. reflexivity. Qed.

Example demo_trailing_comma_line :
  decode_line ([DQUOTE] ++ txt "trailing comma test" ++ [DQUOTE] ++ txt ",")
  = [txt "trailing comma test"; txt ""].
Proof. vm_compute. reflexivity. Qed.

(** * Further properties *)

(** ** The decoder, Field by Field *)

(** The Fields already in the Row stay in front of those a round adds. *)
Lemma field_round_row c field acc ls :
  field_round (c, field, acc, ls)
  = match field_round (c, field, [], ls) with
    | inl (c', field', row, ls') => inl (c', field', acc ++ row, ls')
    | inr (row, ls') => inr (acc ++ row, ls')
    end.
Proof.
  unfold field_round. destruct (get c ls) as [c1 ls1].
  destruct (negb (ok ls1)); [now rewrite app_nil_r|].
  destruct (eof ls1 && empty field && (c1 =? NUL)); [now rewrite app_nil_r|].
  destruct (read_field c1 ls1) as [[c2 f2] ls2].
  destruct (peek ls2) as [p ls3].
  destruct (p =? to_int_type COMMA)%Z.
  - destruct (get c2 ls3) as [c4 ls4]. reflexivity.
  - destruct (peek ls3) as [p' ls4]. destruct (p' =? EOF)%Z; reflexivity.
Qed.

Lemma field_loop_row : forall fuel c field acc ls,
  fst (field_loop fuel (c, field, acc, ls))
  = acc ++ fst (field_loop fuel (c, field, [], ls)).
Proof.
  induction fuel as [|fuel IH]; intros c field acc ls.
  - cbn. now rewrite app_nil_r.
  - cbn [field_loop]. rewrite (field_round_row c field acc ls).
    destruct (field_round (c, field, [], ls))
      as [[[[c1 f1] r1] ls1]|[r1 ls1]]; [|reflexivity].
    rewrite IH, (IH c1 f1 r1 ls1). now rewrite app_assoc.
Qed.

Lemma field_loop_uninit fuel c c' field row ls :
  field_loop fuel (c, field, row, ls) = field_loop fuel (c', field, row, ls).
Proof.
  destruct fuel as [|fuel]; [reflexivity|]. cbn [field_loop].
  now rewrite (field_round_uninit c c').
Qed.

(** The Fields the loop reads from a good stream are those of the line the
    stream holds, its trailing empty Field apart. *)
Lemma field_loop_decode_line fuel c r :
  length r < fuel ->
  fst (field_loop fuel (c, [], [], IStream r goodbit))
  = fst (field_loop (S (length r)) (NUL, [], [], stringstream r)).
Proof.
  intros Hlen. rewrite (field_loop_uninit fuel c NUL). unfold stringstream.
  f_equal. apply field_loop_fuel; unfold rounds_bound; cbn; lia.
Qed.

Lemma decode_line_loop line :
  decode_line line
  = let row := fst (field_loop (S (length line))
                      (NUL, [], [], stringstream line)) in
    if negb (empty line) && (back line =? COMMA) then row ++ [[]] else row.
Proof.
  unfold decode_line. now destruct (field_loop _ _).
Qed.

Lemma field_loop_S fuel v :
  field_loop (S fuel) v
  = match field_round v with
    | inl v' => field_loop fuel v'
    | inr out => out
    end.
Proof. reflexivity. Qed.

(** The decoder, one Field at a time: the first Field of the line is
    scanned; what is left after it is nothing, or a comma and the rest of
    the line, or, after a closing quote, the start of another Field. *)
Lemma decode_line_cons c b :
  decode_line (c :: b)
  = match snd (scan_field c b) with
    | [] =>
        if (back (c :: b) =? COMMA)
        then [fst (scan_field c b); []] else [fst (scan_field c b)]
    | y :: r =>
        if (y =? COMMA) then
          match r with
          | [] => [fst (scan_field c b); []]
          | _ :: _ => fst (scan_field c b) :: decode_line r
          end
        else fst (scan_field c b) :: decode_line (y :: r)
    end.
Proof.
  destruct (snd (scan_field c b)) as [|y r] eqn:Hrest.
  - now apply decode_line_one_field.
  - destruct (scan_field_rest c b) as (raw & Hraw & _).
    pose proof (scan_field_length c b) as Hlen.
    rewrite Hrest in Hraw, Hlen. cbn [length] in Hlen.
    rewrite (decode_line_loop (c :: b)). unfold stringstream.
    rewrite field_loop_S. cbn [empty negb andb].
    destruct (field_round_spec NUL [] [] c b) as (c' & ->). rewrite Hrest.
    cbn [app].
    assert (back (c :: b) = back (y :: r)) as Hback.
    { rewrite Hraw. apply (back_app (c :: raw)). }
    destruct (Ascii.eqb_spec y COMMA) as [->|Hy].
    + rewrite field_loop_row. cbn [app].
      destruct r as [|z r].
      * rewrite Hback. unfold back. cbn. reflexivity.
      * rewrite field_loop_decode_line by (cbn [length] in *; lia).
        rewrite (decode_line_loop (z :: r)). cbn [empty negb andb].
        assert (back (c :: b) = back (z :: r)) as ->.
        { rewrite Hback. apply (back_app [COMMA]). }
        destruct (back (z :: r) =? COMMA); reflexivity.
    + rewrite field_loop_row. cbn [app].
      rewrite field_loop_decode_line by (cbn [length] in *; lia).
      rewrite (decode_line_loop (y :: r)). cbn [empty negb andb].
      rewrite Hback. destruct (back (y :: r) =? COMMA); reflexivity.
Qed.

(** C10. What [decode_line] returns shows where the Decoder reads quotes
    as quotes. A line that starts with a character that is no quote gives,
    as its first Field, that character and all that follows up to the next
    comma or the end of the line, quotes included; the Decoder then starts
    afresh after that comma. A line that starts with a quote gives the
    quoted content as its first Field; what follows the closing quote is
    the end of the line, or a comma, after which the Decoder starts afresh,
    or a character that is never a quote and starts a Field read in the
    first way. So a Field is read in quoted mode only when its quote is the
    first character of the line or comes right after a comma taken as a
    delimiter. *)
Theorem quoted_mode_only_at_field_start (x : ascii) (b : text) :
  (x <> DQUOTE ->
     decode_line (x :: b)
     = (x :: upto_comma b)
       :: match from_comma b with
          | [] => if (back (x :: b) =? COMMA) then [[]] else []
          | [_] => [[]]
          | _ :: r => decode_line r
          end)
  /\ (x = DQUOTE ->
      head (snd (fst (unquote b))) <> Some DQUOTE
      /\ decode_line (x :: b)
         = fst (fst (unquote b))
           :: match snd (fst (unquote b)) with
              | [] => if (back (x :: b) =? COMMA) then [[]] else []
              | y :: r =>
                  if (y =? COMMA) then
                    match r with
                    | [] => [[]]
                    | _ :: _ => decode_line r
                    end
                  else
                    (y :: upto_comma r)
                    :: match from_comma r with
                       | [] => []
                       | [_] => [[]]
                       | _ :: r' => decode_line r'
                       end
              end).
Proof.
  assert (forall y r, y <> DQUOTE ->
            decode_line (y :: r)
            = (y :: upto_comma r)
              :: match from_comma r with
                 | [] => if (back (y :: r) =? COMMA) then [[]] else []
                 | [_] => [[]]
                 | _ :: r' => decode_line r'
                 end) as Hplain.
  { intros y r Hy. rewrite decode_line_cons. unfold scan_field.
    apply Ascii.eqb_neq in Hy. rewrite Hy. cbn [fst snd].
    destruct (from_comma_cases r) as [Hr|(r' & Hr)]; rewrite Hr.
    - destruct (back (y :: r) =? COMMA); reflexivity.
    - rewrite Ascii.eqb_refl. now destruct r'. }
  split; [apply Hplain|]. intros ->.
  destruct (unquote_rest b) as (raw & _ & Hhd & _).
  split; [exact Hhd|].
  rewrite decode_line_cons. unfold scan_field. rewrite Ascii.eqb_refl.
  destruct (unquote b) as [[q rest] closed]. cbn [fst snd] in *.
  destruct rest as [|y r].
  - destruct (back (DQUOTE :: b) =? COMMA); reflexivity.
  - destruct (Ascii.eqb_spec y COMMA) as [->|Hy].
    + now destruct r.
    + rewrite Hplain; [|cbn in Hhd; congruence].
      destruct (from_comma r) as [|z t] eqn:Hr; [|reflexivity].
      assert (back (y :: r) <> COMMA) as Hb.
      { pose proof (back_elem_of y r) as Hin.
        intros Hb. rewrite Hb in Hin.
        apply elem_of_cons in Hin as [Hin|Hin]; [congruence|].
        rewrite <- (upto_from_comma r), Hr, app_nil_r in Hin.
        clear - Hin. induction r as [|c l IH]; cbn in Hin.
        - now apply not_elem_of_nil in Hin.
        - destruct (Ascii.eqb_spec c COMMA) as [->|Hc].
          + now apply not_elem_of_nil in Hin.
          + apply elem_of_cons in Hin as [Hin|Hin]; [congruence|tauto]. }
      apply Ascii.eqb_neq in Hb. now rewrite Hb.
Qed.

Lemma quoted_mode_only_at_field_start_witness :
  decode_line (txt "ab" ++ [DQUOTE] ++ txt "c," ++ [DQUOTE] ++ txt "d"
               ++ [DQUOTE])
  = (txt "ab" ++ [DQUOTE] ++ txt "c")
    :: decode_line ([DQUOTE] ++ txt "d" ++ [DQUOTE]).
Proof.
  apply (proj1 (quoted_mode_only_at_field_start "a"
                  (txt "b" ++ [DQUOTE] ++ txt "c," ++ [DQUOTE] ++ txt "d"
                   ++ [DQUOTE]))).
  discriminate.
Defined.

(** X1. Decoding goes Field by Field: a line that starts with the encoding
    of a Field that is not empty, followed by a comma and more text,
    decodes to that Field followed by the Fields of the text after the
    comma; followed by a comma alone, to that Field and an empty one. *)
Theorem decode_after_delimiter (f rest : text) :
  f <> [] ->
  decode_line (escape_csv_field f ++ [COMMA]) = [f; []]
  /\ (rest <> [] ->
      decode_line (escape_csv_field f ++ COMMA :: rest)
      = f :: decode_line rest).
Proof.
  intros Hf. split.
  - destruct (scan_field_encoded f [COMMA] Hf
                (or_intror (ex_intro _ [] eq_refl)))
      as (c & b & Henc & Hscan).
    rewrite Henc, decode_line_cons, Hscan. reflexivity.
  - intros Hrest.
    destruct (scan_field_encoded f (COMMA :: rest) Hf
                (or_intror (ex_intro _ rest eq_refl)))
      as (c & b & Henc & Hscan).
    rewrite Henc, decode_line_cons, Hscan. cbn [fst snd].
    rewrite Ascii.eqb_refl. destruct rest; [congruence|reflexivity].
Qed.

Lemma decode_after_delimiter_witness :
  decode_line (escape_csv_field (txt "c,d") ++ [COMMA]) = [txt "c,d"; []]
  /\ decode_line (escape_csv_field (txt "c,d") ++ COMMA :: txt "e,,f")
     = txt "c,d" :: decode_line (txt "e,,f").
Proof.
  split.
  - apply (proj1 (decode_after_delimiter (txt "c,d") [] ltac:(discriminate))).
  - apply (proj2 (decode_after_delimiter (txt "c,d") (txt "e,,f")
                    ltac:(discriminate))).
    discriminate.
Defined.

(** X2. The line written for a Row decodes to that Row as soon as no Field
    of the Row is empty, whatever else the Fields hold: commas, quotes,
    line feeds, carriage returns. *)
Theorem row_decoded_back (row : list text) :
  Forall (fun f : text => f <> []) row ->
  decode_line (row_text row) = row.
Proof. apply decode_line_of_row_text. Qed.

Lemma row_decoded_back_witness :
  decode_line
    (row_text [txt "a" ++ [LF] ++ txt "b"; [DQUOTE]; txt "c,d" ++ [CR]])
  = [txt "a" ++ [LF] ++ txt "b"; [DQUOTE]; txt "c,d" ++ [CR]].
Proof.
  apply (row_decoded_back
           [txt "a" ++ [LF] ++ txt "b"; [DQUOTE]; txt "c,d" ++ [CR]]).
  repeat constructor; discriminate.
Defined.

Lemma unquote_no_quote b : DQUOTE ∉ b -> unquote b = (b, [], false).
Proof.
  induction b as [|x b IH]; intros Hno; [reflexivity|].
  apply not_elem_of_cons in Hno as [Hx Hb]. cbn [unquote].
  apply not_eq_sym, Ascii.eqb_neq in Hx. rewrite Hx.
  now rewrite (IH Hb).
Qed.

(** X3. A quote that is opened and never closed raises no error: the rest
    of the line is the Field (followed by an empty Field when the line
    ends with a comma). *)
Theorem unterminated_quote_absorbed (b : text) :
  DQUOTE ∉ b ->
  decode_line (DQUOTE :: b)
  = if (back (DQUOTE :: b) =? COMMA) then [b; []] else [b].
Proof.
  intros Hno. rewrite decode_line_cons. unfold scan_field.
  rewrite Ascii.eqb_refl, (unquote_no_quote b Hno). reflexivity.
Qed.

Lemma unterminated_quote_absorbed_witness :
  decode_line (DQUOTE :: txt "a,b") = [txt "a,b"]
  /\ decode_line (DQUOTE :: txt "a,b,") = [txt "a,b,"; []].
Proof.
  split.
  - apply (unterminated_quote_absorbed (txt "a,b")).
    intros H. apply list_elem_of_In in H. cbn in H.
    repeat (destruct H as [H|H]; [discriminate H|]). exact H.
  - apply (unterminated_quote_absorbed (txt "a,b,")).
    intros H. apply list_elem_of_In in H. cbn in H.
    repeat (destruct H as [H|H]; [discriminate H|]). exact H.
Defined.

(** X4. Characters that follow a closing quote and are no comma are not
    dropped and raise no error: they start the next Field of the Row. *)
Theorem text_after_closing_quote (f : text) (x : ascii) (rest : text) :
  x <> DQUOTE -> x <> COMMA ->
  decode_line (DQUOTE :: double_quotes f ++ DQUOTE :: x :: rest)
  = f :: decode_line (x :: rest).
Proof.
  intros Hq Hc. rewrite decode_line_cons. unfold scan_field.
  rewrite Ascii.eqb_refl, unquote_double_quotes by (cbn; congruence).
  cbn [fst snd]. apply Ascii.eqb_neq in Hc. now rewrite Hc.
Qed.

Lemma text_after_closing_quote_witness :
  decode_line (DQUOTE :: txt "ab" ++ DQUOTE :: txt "cd,e")
  = txt "ab" :: decode_line (txt "cd,e").
Proof.
  apply (text_after_closing_quote (txt "ab") "c" (txt "d,e")); discriminate.
Defined.

(** X5. A line gives a Row without any Field only when the line is
    empty. *)
Theorem decode_line_nil_iff (line : text) :
  decode_line line = [] <-> line = [].
Proof.
  split; [|now intros ->].
  destruct line as [|c b]; [reflexivity|]. rewrite decode_line_cons.
  destruct (snd (scan_field c b)) as [|y [|z r]];
    repeat match goal with
           | |- context [if ?t then _ else _] => destruct t
           end; discriminate.
Qed.

Lemma field_loop_no_quote : forall fuel c b,
  DQUOTE ∉ b ->
  Forall (fun f : text => f <> [])
    (fst (field_loop fuel (c, [], [], IStream b goodbit))).
Proof.
  induction fuel as [|fuel IH]; intros c b Hno; [constructor|].
  rewrite field_loop_S. destruct b as [|x b].
  - rewrite field_round_nil. constructor.
  - apply not_elem_of_cons in Hno as [Hx Hb].
    destruct (field_round_spec c [] [] x b) as (c' & ->).
    unfold scan_field. apply not_eq_sym, Ascii.eqb_neq in Hx. rewrite Hx.
    cbn [fst snd app].
    assert (DQUOTE ∉ from_comma b) as Hfrom.
    { rewrite <- (upto_from_comma b) in Hb.
      now apply not_elem_of_app in Hb as [_ Hb]. }
    destruct (from_comma b) as [|y r].
    + repeat constructor. discriminate.
    + destruct (y =? COMMA).
      * rewrite field_loop_row. constructor; [discriminate|].
        apply IH. now apply not_elem_of_cons in Hfrom as [_ Hr].
      * rewrite field_loop_row. constructor; [discriminate|].
        apply IH. exact Hfrom.
Qed.

(** X6. On a line without any quote character no Field comes out empty,
    except the one added for a comma at the end of the line: two commas in
    a row do not give an empty Field. *)
Theorem unquoted_fields_not_empty (line : text) :
  DQUOTE ∉ line ->
  exists row,
    Forall (fun f : text => f <> []) row
    /\ (decode_line line = row
        \/ (decode_line line = row ++ [[]]
            /\ exists pre, line = pre ++ [COMMA])).
Proof.
  intros Hno. rewrite decode_line_loop.
  exists (fst (field_loop (S (length line)) (NUL, [], [], stringstream line))).
  split; [now apply field_loop_no_quote|]. cbv zeta.
  destruct line as [|x l] eqn:Hline; [now left|]. rewrite <- Hline.
  assert (negb (empty line) = true) as -> by now subst line.
  cbn [andb]. destruct (Ascii.eqb_spec (back line) COMMA) as [Hb|_];
    [right|now left].
  split; [reflexivity|]. exists (removelast line).
  rewrite <- Hb. apply app_removelast_last. subst line. discriminate.
Qed.

Lemma unquoted_fields_not_empty_witness :
  exists row,
    Forall (fun f : text => f <> []) row
    /\ (decode_line (txt "a,,c,") = row
        \/ (decode_line (txt "a,,c,") = row ++ [[]]
            /\ exists pre, txt "a,,c," = pre ++ [COMMA])).
Proof.
  apply (unquoted_fields_not_empty (txt "a,,c,")).
  intros H. apply list_elem_of_In in H. cbn in H.
  repeat (destruct H as [H|H]; [discriminate H|]). exact H.
Defined.

(** ** The reader, line by line *)

Lemma line_loop_S fuel v :
  line_loop (S fuel) v
  = match line_round v with
    | inl v' => line_loop fuel v'
    | inr out => out
    end.
Proof. reflexivity. Qed.

Lemma split_line_no_LF l : LF ∉ l -> split_line l = (l, None).
Proof.
  induction l as [|x l IH]; intros Hno; [reflexivity|].
  apply not_elem_of_cons in Hno as [Hx Hl]. cbn [split_line].
  apply not_eq_sym, Ascii.eqb_neq in Hx. rewrite Hx. now rewrite (IH Hl).
Qed.

Lemma strip_cr_snoc l : strip_cr (l ++ [CR]) = l.
Proof.
  unfold strip_cr, pop_back. rewrite back_snoc, Ascii.eqb_refl.
  assert (empty (l ++ [CR]) = false) as -> by now destruct l.
  apply removelast_last.
Qed.

(** The last line of a file that does not end with a line feed. *)
Lemma read_text_last last :
  LF ∉ last -> last <> [] ->
  read_text last
  = if empty (strip_cr last) then [] else [decode_line (strip_cr last)].
Proof.
  intros Hno Hne. destruct last as [|x l]; [congruence|].
  unfold read_text. cbn [length]. rewrite line_loop_S.
  unfold line_round at 1, getline. flags.
  rewrite (split_line_no_LF (x :: l) Hno).
  cbn [empty ok eof rdstate fail set_eof goodbit
       eofbit failbit badbit orb negb].
  change (if true && (back (x :: l) =? CR) then pop_back (x :: l) else x :: l)
    with (strip_cr (x :: l)).
  rewrite andb_true_r.
  destruct (empty (strip_cr (x :: l))); cbv beta iota;
    rewrite line_loop_S, line_round_not_good by reflexivity; reflexivity.
Qed.

(** X7. A file whose lines all end with a line feed is read line by line:
    the Table has one Row for each line, in order, decoded from the line
    without the carriage return it may end with. *)
Theorem lines_read_one_by_one (filename : text) (lines : list text)
  (w : world) :
  Forall (fun l => LF ∉ l) lines ->
  files w !! filename = Some (lines_text lines) ->
  fst (read_csv filename w) = map (fun l => decode_line (strip_cr l)) lines
  /\ length (fst (read_csv filename w)) = length lines.
Proof.
  intros Hlines Hfile.
  rewrite (read_csv_contents filename _ w Hfile). cbn [fst].
  rewrite <- (app_nil_r (lines_text lines)), read_text_lines by exact Hlines.
  rewrite read_text_nil, app_nil_r. split; [reflexivity|apply length_map].
Qed.

Lemma lines_read_one_by_one_witness :
  fst (read_csv (txt "in.csv")
         (set_file (txt "in.csv") (lines_text [txt "a,b"; txt ""; txt "c"])
            blank_world))
  = [[txt "a"; txt "b"]; []; [txt "c"]].
Proof.
  apply (lines_read_one_by_one (txt "in.csv") [txt "a,b"; txt ""; txt "c"]).
  - repeat constructor; intros H; apply list_elem_of_In in H; cbn in H;
      repeat (destruct H as [H|H]; [discriminate H|]); exact H.
  - vm_compute. reflexivity.
Defined.

(** X8. Windows line ends: when every line of the file ends with a carriage
    return and a line feed, exactly that carriage return is removed, and
    the Rows are those decoded from the lines themselves. *)
Theorem crlf_lines_read (filename : text) (lines : list text) (w : world) :
  Forall (fun l => LF ∉ l) lines ->
  files w !! filename = Some (crlf_text lines) ->
  fst (read_csv filename w) = map decode_line lines.
Proof.
  intros Hlines Hfile.
  rewrite (read_csv_contents filename _ w Hfile). cbn [fst].
  clear Hfile. induction Hlines as [|l lines Hl _ IH]; [reflexivity|].
  unfold crlf_text. cbn [flat_map map]. fold (crlf_text lines).
  replace ((l ++ [CR; LF]) ++ crlf_text lines)
    with ((l ++ [CR]) ++ LF :: crlf_text lines)
    by now rewrite <- !app_assoc.
  rewrite read_text_line, strip_cr_snoc, IH; [reflexivity|].
  rewrite not_elem_of_app, not_elem_of_cons. repeat split;
    [exact Hl|discriminate|apply not_elem_of_nil].
Qed.

Lemma crlf_lines_read_witness :
  fst (read_csv (txt "in.csv")
         (set_file (txt "in.csv") (txt "a,b" ++ [CR; LF] ++ txt "c" ++ [CR; LF])
            blank_world))
  = [decode_line (txt "a,b"); decode_line (txt "c")].
Proof.
  apply (crlf_lines_read (txt "in.csv") [txt "a,b"; txt "c"]).
  - repeat constructor; intros H; apply list_elem_of_In in H; cbn in H;
      repeat (destruct H as [H|H]; [discriminate H|]); exact H.
  - vm_compute. reflexivity.
Defined.

(** X9. The end of the file needs no line feed: a last line that is not
    empty is decoded like the others, unless it is a lone carriage return,
    which gives no Row. *)
Theorem last_line_without_line_feed (filename : text) (lines : list text)
  (last : text) (w : world) :
  Forall (fun l => LF ∉ l) lines ->
  LF ∉ last -> last <> [] ->
  files w !! filename = Some (lines_text lines ++ last) ->
  fst (read_csv filename w)
  = map (fun l => decode_line (strip_cr l)) lines
    ++ (if empty (strip_cr last) then []
        else [decode_line (strip_cr last)]).
Proof.
  intros Hlines Hno Hne Hfile.
  rewrite (read_csv_contents filename _ w Hfile). cbn [fst].
  rewrite read_text_lines by exact Hlines.
  now rewrite read_text_last.
Qed.

Lemma last_line_without_line_feed_witness :
  fst (read_csv (txt "in.csv")
         (set_file (txt "in.csv") (txt "a,b" ++ [LF] ++ txt "c,d")
            blank_world))
  = [[txt "a"; txt "b"]; [txt "c"; txt "d"]]
  /\ fst (read_csv (txt "in.csv")
            (set_file (txt "in.csv") (txt "a,b" ++ [LF; CR]) blank_world))
     = [[txt "a"; txt "b"]].
Proof.
  split.
  - apply (last_line_without_line_feed (txt "in.csv") [txt "a,b"] (txt "c,d")).
    + repeat constructor; intros H; apply list_elem_of_In in H; cbn in H;
        repeat (destruct H as [H|H]; [discriminate H|]); exact H.
    + intros H; apply list_elem_of_In in H; cbn in H;
        repeat (destruct H as [H|H]; [discriminate H|]); exact H.
    + discriminate.
    + vm_compute. reflexivity.
  - apply (last_line_without_line_feed (txt "in.csv") [txt "a,b"] [CR]).
    + repeat constructor; intros H; apply list_elem_of_In in H; cbn in H;
        repeat (destruct H as [H|H]; [discriminate H|]); exact H.
    + intros H; apply list_elem_of_In in H; cbn in H;
        repeat (destruct H as [H|H]; [discriminate H|]); exact H.
    + discriminate.
    + vm_compute. reflexivity.
Defined.

(** ** The writer and the other files *)







Example small_world_file :
  write_csv (txt "sample.csv") [[txt "a"; txt "b"]; [txt "c"]] small_world
  = (false,
     set_file (txt "sample.csv") (txt "a,b" ++ [LF])
       (cerr_endl (txt "Error: An error occurred while writing to sample.csv")
          small_world)).
Proof. vm_compute. reflexivity. Qed.

Lemma foldl_preserves {A B : Type} (P : A -> Prop) (f : A -> B -> A)
  (l : list B) (a : A) :
  P a -> (forall a b, P a -> P (f a b)) -> P (foldl f a l).
Proof.
  intros Ha Hf. revert a Ha. induction l as [|b l IH]; intros a Ha.
  - exact Ha.
  - cbn. apply IH. now apply Hf.
Qed.

Lemma device_write_elsewhere p out w q :
  q <> p -> files (snd (device_write p out w)) !! q = files w !! q.
Proof.
  intros Hq. unfold device_write, set_file. cbn [snd files].
  now rewrite lookup_insert_ne by congruence.
Qed.

(** An insertion into the file at [filename] leaves the other files as
    they are. *)
Lemma put_elsewhere (filename : text) (w0 : world) s ow :
  opath (fst ow) = filename
  /\ (forall p, p <> filename -> files (snd ow) !! p = files w0 !! p) ->
  opath (fst (put s ow)) = filename
  /\ (forall p, p <> filename -> files (snd (put s ow)) !! p = files w0 !! p).
Proof.
  destruct ow as [o w]. cbn [fst snd]. intros [Hpath Hfiles]. unfold put.
  destruct (good (ostate o)); [|now split].
  destruct (empty _); [now split|].
  pose proof (device_write_elsewhere (opath o)
                (take (sends w (obuf o) s) (obuf o ++ s)) w) as Hdev.
  destruct (device_write _ _ w) as [[] w']; cbn [fst snd opath] in *;
    (split; [exact Hpath|]); intros p Hp;
    rewrite Hdev by congruence; now apply Hfiles.
Qed.

Lemma close_elsewhere (filename : text) (w0 : world) ow :
  opath (fst ow) = filename
  /\ (forall p, p <> filename -> files (snd ow) !! p = files w0 !! p) ->
  forall p, p <> filename -> files (snd (close ow)) !! p = files w0 !! p.
Proof.
  destruct ow as [o w]. cbn [fst snd]. intros [Hpath Hfiles] p Hp.
  unfold close. destruct (is_open o); [|now apply Hfiles].
  destruct (empty _); [now apply Hfiles|].
  pose proof (device_write_elsewhere (opath o) (obuf o) w p) as Hdev.
  destruct (device_write _ _ w) as [taken w']. cbn [snd] in *.
  rewrite Hdev by congruence. now apply Hfiles.
Qed.

(** X11. [write_csv] changes no file but its own: every other path holds
    after the call what it held before, whether the call succeeds or not;
    and when the file cannot be opened, no file changes at all. *)
Theorem write_csv_other_files (filename : text) (data : list (list text))
  (w : world) :
  (forall p, p <> filename ->
     files (snd (write_csv filename data w)) !! p = files w !! p)
  /\ (creatable w filename = false ->
      files (snd (write_csv filename data w)) = files w).
Proof.
  unfold write_csv, ofstream_open. split.
  - intros p Hp. destruct (creatable w filename); [|reflexivity].
    cbn [is_open negb].
    pose proof (foldl_preserves
                  (fun ow => opath (fst ow) = filename
                     /\ forall p, p <> filename ->
                          files (snd ow) !! p = files w !! p)
                  (write_row data) (seq 0 (length data))
                  (OStream true filename [] goodbit, set_file filename [] w))
      as Hinv.
    destruct (foldl _ _ _) as [outfile w'].
    assert (opath outfile = filename
            /\ forall p, p <> filename -> files w' !! p = files w !! p)
      as [Hpath Hfiles].
    { apply Hinv.
      - split; [reflexivity|]. intros q Hq. unfold set_file. cbn [snd files].
        now rewrite lookup_insert_ne by congruence.
      - intros ow i Hrow. unfold write_row. apply put_elsewhere.
        apply foldl_preserves; [exact Hrow|].
        intros ow' j Hfield. unfold write_field.
        destruct (_ <? _)%Z; repeat apply put_elsewhere; exact Hfield. }
    destruct (fail (ostate outfile)).
    + pose proof (close_elsewhere filename w
                    (outfile,
                     cerr_endl (txt "Error: An error occurred while writing to "
                                ++ filename) w')
                    (conj Hpath Hfiles) p Hp) as Hclose.
      destruct (close _) as [o2 w2]. exact Hclose.
    + pose proof (close_elsewhere filename w (outfile, w')
                    (conj Hpath Hfiles) p Hp) as Hclose.
      destruct (close _) as [o2 w2]. exact Hclose.
  - intros ->. reflexivity.
Qed.

Lemma write_csv_other_files_witness :
  files (snd (write_csv (txt "sample.csv") [[txt "a"]] blank_line_world))
    !! txt "blank.csv"
  = Some [LF].
Proof.
  rewrite (proj1 (write_csv_other_files (txt "sample.csv") [[txt "a"]]
                    blank_line_world) (txt "blank.csv")).
  - vm_compute. reflexivity.
  - discriminate.
Defined.

(** ** The encoder *)

Lemma double_quotes_inj f g : double_quotes f = double_quotes g -> f = g.
Proof.
  intros H.
  pose proof (unquote_double_quotes f [] ltac:(cbn; congruence)) as Hf.
  pose proof (unquote_double_quotes g [] ltac:(cbn; congruence)) as Hg.
  rewrite H in Hf. congruence.
Qed.

(** X12. Two Fields with the same encoding are the same Field. *)
Theorem escape_csv_field_injective (f g : text) :
  escape_csv_field f = escape_csv_field g -> f = g.
Proof.
  rewrite !escape_csv_field_eq.
  destruct (existsb special f) eqn:Hf, (existsb special g) eqn:Hg.
  - intros H. injection H as H. apply app_inj_tail in H as [H _].
    now apply double_quotes_inj.
  - intros <-. cbn in Hg. discriminate Hg.
  - intros ->. cbn in Hf. discriminate Hf.
  - auto.
Qed.

Lemma escape_csv_field_injective_witness :
  txt "c,d" = txt "c,d".
Proof.
  apply (escape_csv_field_injective (txt "c,d") (txt "c,d")). reflexivity.
Defined.

Lemma double_quotes_length f :
  length (double_quotes f) = length f + count_occ ascii_dec f DQUOTE.
Proof.
  induction f as [|c f IH]; [reflexivity|].
  cbn [double_quotes flat_map count_occ]. fold (double_quotes f).
  rewrite length_app, IH.
  destruct (Ascii.eqb_spec c DQUOTE) as [->|Hc].
  - destruct (ascii_dec DQUOTE DQUOTE); [cbn; lia|congruence].
  - destruct (ascii_dec c DQUOTE); [congruence|cbn; lia].
Qed.

(** X13. The encoding of a Field that needs quotes is longer than the Field
    by two, and by one more for every quote in the Field; a Field that
    needs none keeps its length. The encoding is never shorter than the
    Field, and never longer than twice the Field and two. *)
Theorem escape_csv_field_length (f : text) :
  length (escape_csv_field f)
  = (if existsb special f
     then length f + count_occ ascii_dec f DQUOTE + 2
     else length f)
  /\ length f <= length (escape_csv_field f) <= 2 * length f + 2.
Proof.
  assert (length (escape_csv_field f)
          = if existsb special f
            then length f + count_occ ascii_dec f DQUOTE + 2
            else length f) as Hlen.
  { rewrite escape_csv_field_eq. destruct (existsb special f); [|reflexivity].
    cbn [app length]. rewrite length_app, double_quotes_length. cbn. lia. }
  split; [exact Hlen|]. rewrite Hlen.
  pose proof (count_occ_bound ascii_dec DQUOTE f).
  destruct (existsb special f); lia.
Qed.

(** ** Tables written and read back *)

(** X14. When writing goes through (the file opens and the device takes
    all it is handed), a Table is read back from the file [write_csv] wrote
    it to, Rows of any length, when no Field is empty or holds a line feed,
    and no Row ends with a Field written without quotes that ends in a
    carriage return. *)
Theorem table_read_back (filename : text) (data : list (list text))
  (w : world) :
  Forall (fun row => fits_size_t (length row)) data ->
  writes_through w filename ->
  Forall row_survives data ->
  fst (read_csv filename (snd (write_csv filename data w))) = data.
Proof. apply read_csv_write_csv. Qed.

Lemma table_read_back_witness :
  fst (read_csv (txt "sample.csv")
         (snd (write_csv (txt "sample.csv")
                 [[txt "a"; txt "b" ++ [CR]; txt "c,d"]; []; [[DQUOTE]]]
                 blank_world)))
  = [[txt "a"; txt "b" ++ [CR]; txt "c,d"]; []; [[DQUOTE]]].
Proof.
  apply (table_read_back (txt "sample.csv")
           [[txt "a"; txt "b" ++ [CR]; txt "c,d"]; []; [[DQUOTE]]]
           blank_world).
  - repeat constructor.
  - apply writes_through_blank.
  - repeat constructor; try discriminate;
      try (intros H; apply list_elem_of_In in H; cbn in H;
           repeat (destruct H as [H|H]; [discriminate H|]); exact H);
      intros f Hf; vm_compute in Hf; try discriminate Hf;
      injection Hf as <-; intros Hs; vm_compute in Hs; discriminate Hs.
Defined.

(** X15. When writing goes through, a Field written alone is read back
    unchanged exactly when it is not empty, holds no line feed and, if it
    is written without quotes, does not end in a carriage return. *)
Theorem field_read_back_iff (filename f : text) (w : world) :
  writes_through w filename ->
  fst (read_csv filename (snd (write_csv filename [[f]] w))) = [[f]]
  <-> survives f.
Proof.
  intros Hthrough. split.
  - now apply survives_of_round_trip.
  - intros (Hne & Hlf & Hcr). apply read_csv_write_csv.
    + repeat constructor.
    + exact Hthrough.
    + constructor; [|constructor]. split.
      * constructor; [now split|constructor].
      * intros g [= <-]. exact Hcr.
Qed.

Lemma field_read_back_iff_witness : survives (txt "c,d").
Proof.
  apply (proj1 (field_read_back_iff (txt "sample.csv") (txt "c,d")
                  blank_world (writes_through_blank (txt "sample.csv")))).
  vm_compute. reflexivity.
Defined.

Lemma row_text_no_LF row :
  Forall (fun f => LF ∉ f) row -> LF ∉ row_text row.
Proof.
  induction row as [|f [|g rest] IH]; intros Hrow.
  - apply not_elem_of_nil.
  - inversion Hrow as [|? ? Hf _]; subst. now apply escape_csv_field_LF.
  - inversion Hrow as [|? ? Hf Hrest]; subst.
    rewrite row_text_cons, not_elem_of_app, not_elem_of_cons.
    repeat split; [now apply escape_csv_field_LF|discriminate|now apply IH].
Qed.

Lemma table_text_lines data :
  table_text data = lines_text (map row_text data).
Proof.
  unfold table_text, lines_text. induction data as [|row data IH].
  - reflexivity.
  - cbn [flat_map map]. now rewrite IH.
Qed.

(** X16. When writing goes through and no Field holds a line feed, the
    Table read back from the file [write_csv] wrote has as many Rows as the
    Table written, and each Row comes from the line written for the Row at
    the same place. *)
Theorem rows_read_back (filename : text) (data : list (list text))
  (w : world) :
  Forall (fun row => fits_size_t (length row)) data ->
  writes_through w filename ->
  Forall (Forall (fun f => LF ∉ f)) data ->
  fst (read_csv filename (snd (write_csv filename data w)))
  = map (fun row => decode_line (strip_cr (row_text row))) data
  /\ length (fst (read_csv filename (snd (write_csv filename data w))))
     = length data.
Proof.
  intros Hfit Hthrough Hdata. rewrite read_csv_after_write_csv by assumption.
  rewrite table_text_lines.
  rewrite <- (app_nil_r (lines_text _)), read_text_lines.
  - rewrite read_text_nil, app_nil_r, map_map.
    split; [reflexivity|apply length_map].
  - apply Forall_map. eapply Forall_impl; [exact Hdata|].
    intros row Hrow. now apply row_text_no_LF.
Qed.

Lemma rows_read_back_witness :
  fst (read_csv (txt "sample.csv")
         (snd (write_csv (txt "sample.csv")
                 [[txt "a"; txt ""; txt "c"]; [txt "d" ++ [CR]]]
                 blank_world)))
  = [[txt "a"; txt ",c"]; [txt "d"]].
Proof.
  apply (rows_read_back (txt "sample.csv")
           [[txt "a"; txt ""; txt "c"]; [txt "d" ++ [CR]]] blank_world).
  - repeat constructor.
  - apply writes_through_blank.
  - repeat constructor; intros H; apply list_elem_of_In in H; cbn in H;
      repeat (destruct H as [H|H]; [discriminate H|]); exact H.
Defined.
